(** * IzNetwork: a network of Izhikevich neurons with conduction delays

    Shallow embedding of the class [IzNetwork] of [Dynamical_Complexity.py]
    and proofs about its per-millisecond [update] method, followed by the
    class [ModularNetwork] that builds the matrices of such a network and
    configures it.

    Modelling conventions.
    - numpy's float64 values are modelled by exact rationals in canonical
      form ([Qc]): the arithmetic below is the real arithmetic the source
      approximates, and rounding is not modelled.  Every definition stays
      executable.
    - numpy vectors are [list]s, matrices are lists of rows, read with
      stdpp's lookup.  The objects of the source keep the shapes fixed by the
      constructor and checked by the setters; [wf] states that invariant, and
      it is where the lookups of [update] stay in range.
    - a method is a function from the object before the call to its outcome
      (a value or a raised exception) and the object after the call, so a
      call that raises leaves the object as the statements before the raise
      made it. *)

From Stdlib Require Import ZArith QArith Qcanon Qround Lia Lqa.
From Stdlib Require Import String.
From stdpp Require Import base tactics option list.

Open Scope Qc_scope.

(** ** Exceptions and methods *)

Inductive exn : Type :=
| Exception (msg : string)
| AttributeError
| ValueError
| ZeroDivisionError
| IndexError.

Inductive result (A : Type) : Type :=
| Ok (x : A)
| Raise (e : exn).
Arguments Ok {A} x.
Arguments Raise {A} e.

Definition is_ok {A} (r : result A) : bool :=
  match r with Ok _ => true | Raise _ => false end.

#[export] Instance result_bind : MBind result := fun A B k r =>
  match r with
  | Ok x => k x
  | Raise e => Raise e
  end.

Section Method.
Context {St : Type}.

(** A method of an object of type [St]. *)
Definition method (A : Type) : Type := St -> result A * St.

Definition ret {A} (x : A) : method A := fun s => (Ok x, s).
Definition raise {A} (e : exn) : method A := fun s => (Raise e, s).
Definition gets {A} (f : St -> A) : method A := fun s => (Ok (f s), s).
Definition modify (f : St -> St) : method unit := fun s => (Ok tt, f s).

(** Reading an attribute that may not have been assigned yet. *)
Definition read {A} (f : St -> option A) : method A := fun s =>
  match f s with
  | Some x => (Ok x, s)
  | None => (Raise AttributeError, s)
  end.

Definition mbind_method {A B} (k : A -> method B) (m : method A)
  : method B := fun s =>
  match m s with
  | (Ok x, s') => k x s'
  | (Raise e, s') => (Raise e, s')
  end.

(** [for _ in range(n): x = body(x)]. *)
Fixpoint repeatM {A} (n : nat) (body : A -> method A) (x : A) : method A :=
  match n with
  | O => ret x
  | S n' => mbind_method (repeatM n' body) (body x)
  end.

(** [for i in l: x = body(i, x)]. *)
Fixpoint forM {A B} (l : list B) (body : B -> A -> method A) (x : A)
  : method A :=
  match l with
  | [] => ret x
  | i :: l' => mbind_method (forM l' body) (body i x)
  end.
End Method.

#[export] Instance method_bind {St} : MBind (@method St) :=
  fun A B => @mbind_method St A B.

(** ** Numbers and arrays *)

#[export] Instance Qc_inhabited : Inhabited Qc := populate 0.

Definition qc (n : Z) (d : positive) : Qc := Q2Qc (n # d).

(** [x > y] on floats, as a boolean. *)
Definition Qcgtb (x y : Qc) : bool :=
  match x ?= y with
  | Gt => true
  | _ => false
  end.

(** A two-dimensional numpy array: its [shape] tuple and its rows. *)
Record ndarray (A : Type) : Type := NdArray {
  shape : list nat;
  rows : list (list A)
}.
Arguments NdArray {A} shape rows.
Arguments shape {A} n.
Arguments rows {A} n.

(** The argument of [setDelays], by the kind of its dtype:
    [np.issubdtype(D.dtype, np.integer)] holds of [IntArray] only. *)
Inductive array_arg : Type :=
| IntArray (D : ndarray Z)
| FloatArray (D : ndarray Qc)
| BoolArray (D : ndarray bool).

Definition arg_shape (D : array_arg) : list nat :=
  match D with
  | IntArray D => shape D
  | FloatArray D => shape D
  | BoolArray D => shape D
  end.

Definition shape_eqb (s1 s2 : list nat) : bool := bool_decide (s1 = s2).

(** [np.zeros(n)] and [np.zeros((m, n))]. *)
Definition zeros (n : nat) : list Qc := replicate n 0.
Definition zeros2 (m n : nat) : list (list Qc) := replicate m (zeros n).

(** [np.where(mask)[0]]: the indices of the true entries, ascending. *)
Fixpoint where_from (n : nat) (mask : list bool) : list nat :=
  match mask with
  | [] => []
  | b :: mask' => (if b then [n] else []) ++ where_from (S n) mask'
  end.
Definition np_where (mask : list bool) : list nat := where_from 0 mask.

(** [x[mask] = y[mask]], [x[mask] += y[mask]] and [x[mask] = k]. *)
Definition mask_assign (mask : list bool) (x y : list Qc) : list Qc :=
  imap (fun n xn => if (mask !!! n : bool) then y !!! n else xn) x.
Definition mask_iadd (mask : list bool) (x y : list Qc) : list Qc :=
  imap (fun n xn => if (mask !!! n : bool) then xn + y !!! n else xn) x.
Definition mask_fill (mask : list bool) (x : list Qc) (k : Qc) : list Qc :=
  imap (fun n xn => if (mask !!! n : bool) then k else xn) x.

(** ** The network object *)

Record IzNetwork : Type := mkIzNetwork {
  _Dmax : nat;                       (* the constructor's Dmax, plus one *)
  _N : nat;
  _X : list (list Qc);
  _I : list Qc;
  _cursor : nat;
  _lastFired : list bool;            (* empty: the float64 np.array([]) *)
  _dt : Qc;
  v : list Qc;
  u : list Qc;
  _D : option (list (list Z));       (* unset until setDelays *)
  _W : option (list (list Qc));      (* unset until setWeights *)
  _a : option (list Qc);             (* unset until setParameters *)
  _b : option (list Qc);
  _c : option (list Qc);
  _d : option (list Qc)
}.

(** [__init__(N, Dmax)].  The only failure is numpy's: [np.zeros] refuses a
    negative dimension.  There is no other check on [N] or [Dmax]. *)
Definition __init__ (N Dmax : Z) : result IzNetwork :=
  if ((Dmax + 1 <? 0) || (N <? 0))%Z then Raise ValueError
  else
    let n := Z.to_nat N in
    Ok {| _Dmax := Z.to_nat (Dmax + 1);
          _N := n;
          _X := zeros2 (Z.to_nat (Dmax + 1)) n;
          _I := zeros n;
          _cursor := 0;
          _lastFired := replicate n false;
          _dt := qc 1 10;
          v := replicate n (qc (-65) 1);
          u := replicate n (qc (-1) 1);
          _D := None; _W := None;
          _a := None; _b := None; _c := None; _d := None |}.

(** Attribute assignments. *)
Definition with_X (X : list (list Qc)) (self : IzNetwork) : IzNetwork :=
  {| _Dmax := _Dmax self; _N := _N self; _X := X; _I := _I self;
     _cursor := _cursor self; _lastFired := _lastFired self; _dt := _dt self;
     v := v self; u := u self; _D := _D self; _W := _W self;
     _a := _a self; _b := _b self; _c := _c self; _d := _d self |}.
Definition with_I (I : list Qc) (self : IzNetwork) : IzNetwork :=
  {| _Dmax := _Dmax self; _N := _N self; _X := _X self; _I := I;
     _cursor := _cursor self; _lastFired := _lastFired self; _dt := _dt self;
     v := v self; u := u self; _D := _D self; _W := _W self;
     _a := _a self; _b := _b self; _c := _c self; _d := _d self |}.
Definition with_cursor (k : nat) (self : IzNetwork) : IzNetwork :=
  {| _Dmax := _Dmax self; _N := _N self; _X := _X self; _I := _I self;
     _cursor := k; _lastFired := _lastFired self; _dt := _dt self;
     v := v self; u := u self; _D := _D self; _W := _W self;
     _a := _a self; _b := _b self; _c := _c self; _d := _d self |}.
Definition with_lastFired (m : list bool) (self : IzNetwork) : IzNetwork :=
  {| _Dmax := _Dmax self; _N := _N self; _X := _X self; _I := _I self;
     _cursor := _cursor self; _lastFired := m; _dt := _dt self;
     v := v self; u := u self; _D := _D self; _W := _W self;
     _a := _a self; _b := _b self; _c := _c self; _d := _d self |}.
Definition with_v (x : list Qc) (self : IzNetwork) : IzNetwork :=
  {| _Dmax := _Dmax self; _N := _N self; _X := _X self; _I := _I self;
     _cursor := _cursor self; _lastFired := _lastFired self; _dt := _dt self;
     v := x; u := u self; _D := _D self; _W := _W self;
     _a := _a self; _b := _b self; _c := _c self; _d := _d self |}.
Definition with_u (x : list Qc) (self : IzNetwork) : IzNetwork :=
  {| _Dmax := _Dmax self; _N := _N self; _X := _X self; _I := _I self;
     _cursor := _cursor self; _lastFired := _lastFired self; _dt := _dt self;
     v := v self; u := x; _D := _D self; _W := _W self;
     _a := _a self; _b := _b self; _c := _c self; _d := _d self |}.
Definition with_D (D : list (list Z)) (self : IzNetwork) : IzNetwork :=
  {| _Dmax := _Dmax self; _N := _N self; _X := _X self; _I := _I self;
     _cursor := _cursor self; _lastFired := _lastFired self; _dt := _dt self;
     v := v self; u := u self; _D := Some D; _W := _W self;
     _a := _a self; _b := _b self; _c := _c self; _d := _d self |}.
Definition with_W (W : list (list Qc)) (self : IzNetwork) : IzNetwork :=
  {| _Dmax := _Dmax self; _N := _N self; _X := _X self; _I := _I self;
     _cursor := _cursor self; _lastFired := _lastFired self; _dt := _dt self;
     v := v self; u := u self; _D := _D self; _W := Some W;
     _a := _a self; _b := _b self; _c := _c self; _d := _d self |}.
Definition with_abcd (a b c d : list Qc) (self : IzNetwork) : IzNetwork :=
  {| _Dmax := _Dmax self; _N := _N self; _X := _X self; _I := _I self;
     _cursor := _cursor self; _lastFired := _lastFired self; _dt := _dt self;
     v := v self; u := u self; _D := _D self; _W := _W self;
     _a := Some a; _b := Some b; _c := Some c; _d := Some d |}.

(** ** The setters *)

(** [(D < 0.5).any()] on an integer array. *)
Definition below_half (x : Z) : bool :=
  match Q2Qc (inject_Z x) ?= qc 1 2 with
  | Lt => true
  | _ => false
  end.
Definition any_below_half (D : list (list Z)) : bool :=
  existsb (existsb below_half) D.

Definition setDelays (D : array_arg) : method unit :=
  N ← gets _N;
  if negb (shape_eqb (arg_shape D) [N; N]) then
    raise (Exception "Delay matrix must be N-by-N.")
  else
    match D with
    | IntArray D =>
        if any_below_half (rows D) then
          raise (Exception "Delays must be strictly positive.")
        else modify (with_D (rows D))
    | _ => raise (Exception "Delays must be integer numbers.")
    end.

Definition setWeights (W : ndarray Qc) : method unit :=
  N ← gets _N;
  if negb (shape_eqb (shape W) [N; N]) then
    raise (Exception "Weight matrix must be N-by-N.")
  else modify (with_W (rows W)).

Definition setCurrent (I : list Qc) : method unit :=
  N ← gets _N;
  if negb (length I =? N)%nat then
    raise (Exception "Current vector must be of size N.")
  else modify (with_I I).

Definition setParameters (a b c d : list Qc) : method unit :=
  N ← gets _N;
  if negb (bool_decide ((length a, length b, length c, length d)
                        = (N, N, N, N))) then
    raise (Exception "Parameter vectors must be of size N.")
  else modify (with_abcd a b c d).

Definition getState : @method IzNetwork (list Qc * list Qc) :=
  gets (fun self => (v self, u self)).

(** ** [update]: one millisecond of network activity *)

(** Line 154: the accumulator slot under the cursor, and the total input. *)
Definition synaptic_input (self : IzNetwork) : list Qc :=
  _X self !!! (_cursor self mod _Dmax self)%nat.
Definition input_current (self : IzNetwork) : list Qc :=
  zip_with Qcplus (_I self) (synaptic_input self).

(** The right-hand sides of lines 164 and 165, for the neurons not yet fired
    in this millisecond; [v] and [u] are the copies of lines 162-163. *)
Definition euler_v (dt : Qc) (I : list Qc) (fired : list bool)
    (v u : list Qc) : list Qc :=
  imap (fun n vn =>
    if (fired !!! n : bool) then vn
    else vn + dt * (qc 4 100 * vn * vn + qc 5 1 * vn + qc 140 1
                    - u !!! n + I !!! n)) v.
Definition euler_u (dt : Qc) (a b : list Qc) (fired : list bool)
    (v u : list Qc) : list Qc :=
  imap (fun n un =>
    if (fired !!! n : bool) then un
    else un + dt * (a !!! n * (b !!! n * v !!! n - un))) u.
(** Line 166. *)
Definition mark_fired (fired : list bool) (v : list Qc) : list bool :=
  imap (fun n f => f || Qcgtb (v !!! n) (qc 30 1)) fired.

(** Lines 161-166: the body of the integration loop. *)
Definition euler_substep (I : list Qc) (fired : list bool)
  : @method IzNetwork (list bool) :=
  v0 ← gets v;
  u0 ← gets u;
  dt ← gets _dt;
  _ ← modify (with_v (euler_v dt I fired v0 u0));
  a ← read _a;
  b ← read _b;
  _ ← modify (with_u (euler_u dt a b fired v0 u0));
  v1 ← gets v;
  ret (mark_fired fired v1).

(** [int(1/self._dt)], the number of sub-steps. *)
Definition substeps (dt : Qc) : nat := Z.to_nat (Qfloor (1 / dt)).

(** The integers of numpy's default integer dtype. *)
Definition int64 (x : Z) : Prop := (- 2 ^ 63 <= x < 2 ^ 63)%Z.

(** Line 183 for one firing neuron [i], with [Drow = D[i,:]] and
    [Wrow = W[i,:]].  The fancy index pairs row
    [(cursor + D[i,j]) % Dmax] with column [j] for every [j]; the columns are
    pairwise distinct, so each such cell is incremented once and no other
    cell changes.  The sum is taken in [Z]: it is the sum numpy computes as
    long as the cursor and the sum are [int64]; beyond, numpy wraps around,
    and the theorems about delays above [Dmax] ask for [int64] sums. *)
Definition slot_of (Dmax cursor : nat) (delay : Z) : nat :=
  Z.to_nat ((Z.of_nat cursor + delay) mod Z.of_nat Dmax).
Definition scatter_row (Dmax cursor : nat) (Drow : list Z) (Wrow : list Qc)
    (X : list (list Qc)) : list (list Qc) :=
  imap (fun r Xr =>
    imap (fun j x =>
      if bool_decide (slot_of Dmax cursor (Drow !!! j) = r)
      then x + Wrow !!! j else x) Xr) X.

(** Lines 182-183: the body of the loop over the firing neurons. *)
Definition scatter_one (i : nat) (_ : unit) : @method IzNetwork unit :=
  X ← gets _X;
  cursor ← gets _cursor;
  D ← read _D;
  Dmax ← gets _Dmax;
  W ← read _W;
  modify (with_X (scatter_row Dmax cursor (D !!! i) (W !!! i) X)).

Definition update : @method IzNetwork (list nat) :=
  (* lines 150-151; without neurons [_lastFired] is still the constructor's
     [np.array([])], a float64 array, which numpy refuses as an index *)
  lastFired ← gets _lastFired;
  v0 ← gets v;
  c ← read _c;
  _ ← (if decide (lastFired = []) then raise IndexError else ret tt);
  _ ← modify (with_v (mask_assign lastFired v0 c));
  u0 ← gets u;
  d ← read _d;
  _ ← modify (with_u (mask_iadd lastFired u0 d));
  (* line 154 *)
  Dmax ← gets _Dmax;
  _ ← (if (Dmax =? 0)%nat then raise ZeroDivisionError else ret tt);
  I ← gets input_current;
  (* lines 159-166 *)
  N ← gets _N;
  dt ← gets _dt;
  fired ← repeatM (substeps dt) (euler_substep I) (replicate N false);
  (* lines 171-176 *)
  let fired_idx := np_where fired in
  _ ← modify (with_lastFired fired);
  v2 ← gets v;
  _ ← modify (with_v (mask_fill fired v2 (qc 30 1)));
  _ ← modify (with_I (zeros N));
  (* lines 182-183 *)
  _ ← forM fired_idx scatter_one tt;
  (* lines 186-187 *)
  X ← gets _X;
  cursor ← gets _cursor;
  _ ← modify (with_X (<[(cursor mod Dmax)%nat := zeros N]> X));
  _ ← modify (with_cursor (S cursor));
  ret fired_idx.

(** ** Driving the network *)

(** The driver's loop body: [setCurrent(I)] then [update()]. *)
Definition step (I : list Qc) : @method IzNetwork (list nat) :=
  _ ← setCurrent I; update.

(** The object before step [t], when step [s] is driven with the external
    current [inputs s]; an exception ends the run. *)
Fixpoint state_at (self : IzNetwork) (inputs : nat -> list Qc) (t : nat)
  : result IzNetwork :=
  match t with
  | O => Ok self
  | S t' => s ← state_at self inputs t';
            match step (inputs t') s with
            | (Ok _, s') => Ok s'
            | (Raise e, _) => Raise e
            end
  end.

(** What [update] returns at step [t]. *)
Definition fired_at (self : IzNetwork) (inputs : nat -> list Qc) (t : nat)
  : result (list nat) :=
  s ← state_at self inputs t; (step (inputs t) s).1.

Definition fires (self : IzNetwork) (inputs : nat -> list Qc) (t i : nat)
  : bool :=
  match fired_at self inputs t with
  | Ok f => bool_decide (i ∈ f)
  | Raise _ => false
  end.

(** The total input current [I] that step [t] computes at line 154. *)
Definition input_at (self : IzNetwork) (inputs : nat -> list Qc) (t : nat)
  : result (list Qc) :=
  s ← state_at self inputs t;
  match setCurrent (inputs t) s with
  | (Ok _, s') => Ok (input_current s')
  | (Raise e, _) => Raise e
  end.

(** What [getState] shows after step [t]. *)
Definition trajectory (self : IzNetwork) (inputs : nat -> list Qc) (t : nat)
  : result (list Qc * list Qc) :=
  s ← state_at self inputs (S t); (getState s).1.

(** A fresh object configured once, in the driver's order. *)
Definition configure (N Dmax : Z) (a b c d : list Qc) (W : ndarray Qc)
    (D : array_arg) : result IzNetwork :=
  self ← __init__ N Dmax;
  match (_ ← setParameters a b c d; _ ← setWeights W; setDelays D) self with
  | (Ok _, self') => Ok self'
  | (Raise e, _) => Raise e
  end.

(** ** The state of [update] in closed form *)

Definition reset_v (self : IzNetwork) (c : list Qc) : list Qc :=
  mask_assign (_lastFired self) (v self) c.
Definition reset_u (self : IzNetwork) (d : list Qc) : list Qc :=
  mask_iadd (_lastFired self) (u self) d.

(** The flags and the state [(fired, v, u)] one sub-step later. *)
Definition substep (dt : Qc) (a b I : list Qc)
    (st : list bool * list Qc * list Qc) : list bool * list Qc * list Qc :=
  let v' := euler_v dt I st.1.1 st.1.2 st.2 in
  (mark_fired st.1.1 v', v', euler_u dt a b st.1.1 st.1.2 st.2).

(** [(fired, v, u)] after [k] sub-steps of the call [update()] on [self]. *)
Definition substates (self : IzNetwork) (a b c d : list Qc) (k : nat)
  : list bool * list Qc * list Qc :=
  Nat.iter k (substep (_dt self) a b (input_current self))
    (replicate (_N self) false, reset_v self c, reset_u self d).

Definition scatter (Dmax cursor : nat) (D : list (list Z))
    (W : list (list Qc)) (fired_idx : list nat) (X : list (list Qc))
  : list (list Qc) :=
  foldl (fun X i => scatter_row Dmax cursor (D !!! i) (W !!! i) X) X fired_idx.

(** What a call [update()] returns and the object it leaves, when the
    parameters, the weights and the delays are set, [Dmax + 1] is not 0 and
    there is at least one neuron. *)
Definition update_post (self : IzNetwork) (a b c d : list Qc)
    (W : list (list Qc)) (D : list (list Z)) : list nat * IzNetwork :=
  let st := substates self a b c d (substeps (_dt self)) in
  let fired_idx := np_where st.1.1 in
  (fired_idx,
   {| _Dmax := _Dmax self; _N := _N self;
      _X := <[(_cursor self mod _Dmax self)%nat := zeros (_N self)]>
              (scatter (_Dmax self) (_cursor self) D W fired_idx (_X self));
      _I := zeros (_N self);
      _cursor := S (_cursor self);
      _lastFired := st.1.1;
      _dt := _dt self;
      v := mask_fill st.1.1 st.1.2 (qc 30 1);
      u := st.2;
      _D := _D self; _W := _W self;
      _a := _a self; _b := _b self; _c := _c self; _d := _d self |}).

(** The shapes the constructor fixes and [update] keeps. *)
Record wf (self : IzNetwork) : Prop := {
  wf_X_rows : length (_X self) = _Dmax self;
  wf_X_cols : forall r row, _X self !! r = Some row -> length row = _N self;
  wf_lastFired : length (_lastFired self) = _N self;
  wf_v : length (v self) = _N self;
  wf_u : length (u self) = _N self;
  wf_dt : _dt self = qc 1 10
}.

(** Set by [setParameters], [setWeights] and [setDelays]. *)
Record configured (self : IzNetwork) (a b c d : list Qc)
    (W : list (list Qc)) (D : list (list Z)) : Prop := {
  cfg_a : _a self = Some a;
  cfg_b : _b self = Some b;
  cfg_c : _c self = Some c;
  cfg_d : _d self = Some d;
  cfg_W : _W self = Some W;
  cfg_D : _D self = Some D
}.

(** An object ready to be driven: shaped, configured, with [M] buffer slots
    and [N] neurons. *)
Record ready (self : IzNetwork) (a b c d : list Qc) (W : list (list Qc))
    (D : list (list Z)) (M N : nat) : Prop := {
  rdy_wf : wf self;
  rdy_cfg : configured self a b c d W D;
  rdy_M : _Dmax self = M;
  rdy_N : _N self = N;
  rdy_M_pos : M <> 0%nat
}.

(** The only nonzero weight is [W[i,j] = w]. *)
Definition single_edge (W : list (list Qc)) (i j : nat) (w : Qc) : Prop :=
  forall i' j', (W !!! i') !!! j' = if bool_decide (i' = i /\ j' = j) then w else 0.

Definition delay_of (D : list (list Z)) (i j : nat) : Z := (D !!! i) !!! j.

(** [X[r, j]], when in range. *)
Definition cell (X : list (list Qc)) (r j : nat) : option Qc :=
  X !! r ≫= (fun row => row !! j).

(** The number of steps after which a contribution scattered with delay [k]
    into a buffer of [M] slots is under the cursor again. *)
Definition landing (M : nat) (k : Z) : nat := Z.to_nat (k mod Z.of_nat M).

(** At step [t], the slot [q] steps ahead of the cursor holds what neuron
    [i] sent [r - q] steps ago, when [f] tells the steps at which it fired. *)
Definition scheduled (f : nat -> bool) (r t q : nat) : bool :=
  bool_decide (q < r /\ r <= t + q)%nat && f (t + q - r)%nat.

(** A run of a freshly configured network whose only edge is [i -> j]. *)
Record edge_run (net : IzNetwork) (a b c d : list Qc) (W : list (list Qc))
    (D : list (list Z)) (M N i j : nat) (w : Qc) (inputs : nat -> list Qc)
  : Prop := {
  er_ready : ready net a b c d W D M N;
  er_cursor : _cursor net = 0%nat;
  er_X : _X net = zeros2 M N;
  er_edge : single_edge W i j w;
  er_target : (j < N)%nat;
  er_inputs : forall t, length (inputs t) = N
}.

(** The setters of the class. *)
Inductive setter : @method IzNetwork unit -> Prop :=
| setter_setDelays D : setter (setDelays D)
| setter_setWeights W : setter (setWeights W)
| setter_setCurrent I : setter (setCurrent I)
| setter_setParameters a b c d : setter (setParameters a b c d).

(** The objects a caller can hold before the first [update]: what the
    constructor returns, then any calls of setters, in any order, whether
    they return or raise. *)
Inductive fresh (N Dmax : Z) : IzNetwork -> Prop :=
| fresh_init self :
    __init__ N Dmax = Ok self -> fresh N Dmax self
| fresh_call self m r self' :
    fresh N Dmax self -> setter m -> m self = (r, self') ->
    fresh N Dmax self'.

(** The integer entries of the argument of [setDelays], when its dtype is an
    integer one. *)
Definition int_entries (D : array_arg) : option (list (list Z)) :=
  match D with
  | IntArray D => Some (rows D)
  | _ => None
  end.

(** ** Small networks *)

(** One neuron; an external current of 1000 makes it cross
    the threshold in the first sub-step. *)
Definition one_neuron (c : Qc) : result IzNetwork :=
  configure 1 1 [0] [0] [c] [0]
    (NdArray [1; 1]%nat [[0]]) (IntArray (NdArray [1; 1]%nat [[1%Z]])).

(** Two neurons and the edge 0 -> 1 of weight 5 and delay [k]; with
    [a = 0] and current 15 a neuron rests at [v = -65], [u = -1]. *)
Definition two_neurons (Dmax k : Z) : result IzNetwork :=
  configure 2 Dmax [0; 0] [0; 0] [qc (-65) 1; qc (-65) 1] [0; 0]
    (NdArray [2; 2]%nat [[0; qc 5 1]; [0; 0]])
    (IntArray (NdArray [2; 2]%nat [[1; k]; [1; 1]]%Z)).

(** One neuron driven over the threshold at step 0, without input later. *)
Definition pulse (t : nat) : list Qc :=
  match t with
  | O => [qc 1000 1]
  | _ => [0]
  end.

(** What [IzNetwork(2, 1)] constructs, and that object after three setter
    calls, the second of which is refused. *)
Definition blank2 : IzNetwork :=
  mkIzNetwork 2 2 (zeros2 2 2) (zeros 2) 0 [false; false] (qc 1 10)
    [qc (-65) 1; qc (-65) 1] [qc (-1) 1; qc (-1) 1]
    None None None None None None.
Definition prepared : IzNetwork :=
  (setCurrent [qc 1000 1; 0]
     (setWeights (NdArray [1; 1]%nat [[0]])
        (setParameters [0; 0] [0; 0] [qc (-65) 1; qc (-65) 1] [0; 0]
           blank2).2).2).2.

(** Neuron 0 is driven over the threshold at step 0 and rests afterwards. *)
Definition kick (t : nat) : list Qc :=
  match t with
  | O => [qc 1000 1; qc 15 1]
  | _ => [qc 15 1; qc 15 1]
  end.

(** With [Dmax = 1] and the delay 3 on the edge 0 -> 1: who fires at step 0,
    and the input currents of step 1, as plain fractions. *)
Definition long_delay_run : result (list nat * list Q) :=
  net ← two_neurons 1 3;
  f ← fired_at net kick 0;
  I ← input_at net kick 1;
  Ok (f, map this I).

(** ** Sums over neurons *)

(** The sum of [f i] over the neurons [i] of [l], and over all [n]
    neurons. *)
Definition Qcsum_list (f : nat -> Qc) (l : list nat) : Qc :=
  foldr (fun i acc => f i + acc) 0 l.
Definition Qcsum (f : nat -> Qc) (n : nat) : Qc := Qcsum_list f (seq 0 n).

(** ** The class [ModularNetwork]

    Neuron counts are natural numbers, and the integers of [delay_coef] are
    taken to fit numpy's [int].  Python's module [random] is a generator
    outside this file: [Rng] gives, for the [k]-th call made to the module,
    the number a call of [random.random()] would return and the number a
    draw below [n] would return, and [rng_ok] is what the module documents
    about them.  A method runs on the network (or on the matrix it fills)
    paired with the count of calls made so far.  The methods that loop until
    a random draw is accepted ([gen_modular_small_world] and
    [add_ex2in_connection]) are not modelled. *)

(** [range(a, b)]. *)
Definition py_range (a b : nat) : list nat := seq a (b - a).

Record ModularNetwork : Type := mkModularNetwork {
  md_num : nat;
  md_excit_lst : list (list nat);
  excit : list nat;
  inhib : list nat;
  connection : list (list Qc);
  delay_coef : list (list Z);
  wt_coef : list (list Qc)
}.

(** Lines 197-201: the list of modules and the running index. *)
Definition module_ranges (md_num excit : nat) : list (list nat) * nat :=
  foldl (fun st _ =>
           (st.1 ++ [py_range st.2 (st.2 + excit)], st.2 + excit)%nat)
    ([], 0%nat) (seq 0 md_num).

(** [ModularNetwork.__init__(md_num, excit, inhib)]. *)
Definition ModularNetwork__init__ (md_num excit inhib : nat)
  : ModularNetwork :=
  let lst := (module_ranges md_num excit).1 in
  let idx := (module_ranges md_num excit).2 in
  let idx' := (idx + inhib)%nat in
  {| md_num := md_num;
     md_excit_lst := lst;
     excit := py_range 0 idx;
     inhib := py_range idx (idx + inhib)%nat;
     connection := zeros2 idx' idx';
     delay_coef := replicate idx' (replicate idx' 0%Z);
     wt_coef := zeros2 idx' idx' |}.

Record Rng : Type := mkRng {
  next_unit : nat -> Qc;
  next_below : nat -> Z -> Z
}.

Definition rng_ok (g : Rng) : Prop :=
  (forall k, 0 <= next_unit g k /\ next_unit g k < 1)
  /\ (forall k n, (0 < n)%Z -> (0 <= next_below g k n < n)%Z).

(** [random.uniform(lo, hi)] is [lo + (hi - lo) * random()]. *)
Definition uniform (g : Rng) (lo hi : Qc) (k : nat) : result Qc :=
  Ok (lo + (hi - lo) * next_unit g k).

(** [random.randint(lo, hi)]: a draw below [hi - lo + 1] added to [lo], and
    a [ValueError] for an empty range. *)
Definition randint (g : Rng) (lo hi : Z) (k : nat) : result Z :=
  if (hi <? lo)%Z then Raise ValueError
  else Ok (lo + next_below g k (hi - lo + 1))%Z.

(** What [random.uniform(x, y)] documents of its result [w]: it lies between
    [x] and [y], whichever of the two is the smaller. *)
Definition between (x y w : Qc) : Prop :=
  (x <= y -> x <= w /\ w <= y) /\ (y <= x -> y <= w /\ w <= x).

(** A generator: every float drawn is one half and every integer the lowest
    of its range. *)
Definition steady : Rng := mkRng (fun _ => qc 1 2) (fun _ _ => 0%Z).

(** [m[i][j]], when in range, and the assignment [m[i][j] = x]. *)
Definition entry {A} (m : list (list A)) (i j : nat) : option A :=
  m !! i ≫= (fun row => row !! j).
Definition set_entry {A} (i j : nat) (x : A) (m : list (list A))
  : result (list (list A)) :=
  match m !! i with
  | Some row =>
      if decide (j < length row)%nat then Ok (<[i := <[j := x]> row]> m)
      else Raise IndexError
  | None => Raise IndexError
  end.

(** The matrix is [r]-by-[c]. *)
Definition shaped {A} (m : list (list A)) (r c : nat) : Prop :=
  length m = r /\ forall i row, m !! i = Some row -> length row = c.

(** Lines 242 and 244: [target_matrix[i][j] = random...(min_val, max_val)],
    where [draw k] is what that call returns as the [k]-th call to the
    module. *)
Definition gen_coef_entry {A} (draw : nat -> result A) (i j : nat)
  : @method (list (list A) * nat) unit := fun st =>
  match draw st.2 with
  | Ok x =>
      match set_entry i j x st.1 with
      | Ok m' => (Ok tt, (m', S st.2))
      | Raise e => (Raise e, (st.1, S st.2))
      end
  | Raise e => (Raise e, st)
  end.

(** [gen_coef(target_matrix, fr_range, to_range, min_val, max_val,
    need_int)]: [draw] is [randint g min_val max_val] when [need_int] and
    [uniform g min_val max_val] otherwise. *)
Definition gen_coef {A} (draw : nat -> result A) (fr_range to_range : list nat)
  : @method (list (list A) * nat) unit :=
  forM fr_range (fun i _ =>
    forM to_range (fun j _ => gen_coef_entry draw i j) tt) tt.

(** The network with one of its matrices replaced. *)
Definition with_connection (m : list (list Qc)) (self : ModularNetwork)
  : ModularNetwork :=
  mkModularNetwork (md_num self) (md_excit_lst self) (excit self)
    (inhib self) m (delay_coef self) (wt_coef self).
Definition with_delay_coef (m : list (list Z)) (self : ModularNetwork)
  : ModularNetwork :=
  mkModularNetwork (md_num self) (md_excit_lst self) (excit self)
    (inhib self) (connection self) m (wt_coef self).
Definition with_wt_coef (m : list (list Qc)) (self : ModularNetwork)
  : ModularNetwork :=
  mkModularNetwork (md_num self) (md_excit_lst self) (excit self)
    (inhib self) (connection self) (delay_coef self) m.

(** [self.gen_coef(self.wt_coef, ...)] and
    [self.gen_coef(self.delay_coef, ...)]: the matrix is filled in place. *)
Definition on_wt_coef (m : @method (list (list Qc) * nat) unit)
  : @method (ModularNetwork * nat) unit := fun st =>
  let r := m (wt_coef st.1, st.2) in
  (r.1, (with_wt_coef r.2.1 st.1, r.2.2)).
Definition on_delay_coef (m : @method (list (list Z) * nat) unit)
  : @method (ModularNetwork * nat) unit := fun st =>
  let r := m (delay_coef st.1, st.2) in
  (r.1, (with_delay_coef r.2.1 st.1, r.2.2)).

(** [self.connection[i][j] = 1]. *)
Definition connect (i j : nat) : @method (ModularNetwork * nat) unit :=
  fun st =>
  match set_entry i j 1 (connection st.1) with
  | Ok m' => (Ok tt, (with_connection m' st.1, st.2))
  | Raise e => (Raise e, st)
  end.

(** [add_in2ex_connection(wt_min, wt_max, scaling, delay_min, delay_max)]. *)
Definition add_in2ex_connection (g : Rng) (wt_min wt_max scaling : Qc)
    (delay_min delay_max : Z) : @method (ModularNetwork * nat) unit :=
  self ← gets fst;
  _ ← forM (inhib self) (fun i _ =>
         forM (excit self) (fun j _ => connect i j) tt) tt;
  _ ← on_wt_coef (gen_coef (uniform g (wt_min * scaling) (wt_max * scaling))
                    (inhib self) (excit self));
  on_delay_coef (gen_coef (randint g delay_min delay_max)
                   (inhib self) (excit self)).

(** [add_in2in_connection(wt_min, wt_max, scaling, delay_min, delay_max)]. *)
Definition add_in2in_connection (g : Rng) (wt_min wt_max scaling : Qc)
    (delay_min delay_max : Z) : @method (ModularNetwork * nat) unit :=
  self ← gets fst;
  _ ← forM (inhib self) (fun i _ =>
         forM (inhib self) (fun j _ =>
           if decide (i <> j) then connect i j else ret tt) tt) tt;
  _ ← on_wt_coef (gen_coef (uniform g (wt_min * scaling) (wt_max * scaling))
                    (inhib self) (inhib self));
  on_delay_coef (gen_coef (randint g delay_min delay_max)
                   (inhib self) (inhib self)).

(** The matrices of the network are [n]-by-[n] and its two populations are
    neurons of the network. *)
Record mn_wf (self : ModularNetwork) (n : nat) : Prop := {
  mn_connection : shaped (connection self) n n;
  mn_delay_coef : shaped (delay_coef self) n n;
  mn_wt_coef : shaped (wt_coef self) n n;
  mn_excit : forall i, i ∈ excit self -> (i < n)%nat;
  mn_inhib : forall i, i ∈ inhib self -> (i < n)%nat
}.

(** Lines 378-408 of [simulate_network]: the parameters of an excitatory
    and of an inhibitory neuron from its draw [r = random.uniform(0, 1)]. *)
Definition excit_parameters (r : Qc) : Qc * Qc * Qc * Qc :=
  (qc 2 100, qc 2 10, qc (-65) 1 + qc 15 1 * (r * r),
   qc 8 1 - qc 6 1 * (r * r)).
Definition inhib_parameters (r : Qc) : Qc * Qc * Qc * Qc :=
  (qc 2 100 + qc 8 100 * r, qc 25 100 - qc 5 100 * r, qc (-65) 1, qc 2 1).

(** The rows [(a, b, c, d)] of the [n] neurons drawn from call [k] on. *)
Definition draw_parameters (g : Rng) (f : Qc -> Qc * Qc * Qc * Qc)
    (n k : nat) : list (Qc * Qc * Qc * Qc) :=
  (fun i => f (0 + (1 - 0) * next_unit g (k + i))) <$> seq 0 n.

(** The shape of a two-dimensional array given by its rows. *)
Definition np_shape {A} (m : list (list A)) : list nat :=
  [length m; default 0%nat (length <$> head m)].

(** [self.wt_coef * self.connection], entry by entry. *)
Definition effective_weights (self : ModularNetwork) : list (list Qc) :=
  zip_with (zip_with Qcmult) (wt_coef self) (connection self).

(** Lines 378-413 of [simulate_network]: the [IzNetwork] it builds and
    configures before the first step, and the calls made to [random]. *)
Definition simulate_setup (g : Rng) (self : ModularNetwork) (k : nat)
  : result IzNetwork * nat :=
  let n_ex := length (excit self) in
  let n_in := length (inhib self) in
  let p := draw_parameters g excit_parameters n_ex k
           ++ draw_parameters g inhib_parameters n_in (k + n_ex) in
  (configure (Z.of_nat (n_ex + n_in)) 20
     ((fun x => x.1.1.1) <$> p) ((fun x => x.1.1.2) <$> p)
     ((fun x => x.1.2) <$> p) (snd <$> p)
     (NdArray (np_shape (effective_weights self)) (effective_weights self))
     (IntArray (NdArray (np_shape (delay_coef self)) (delay_coef self))),
   (k + n_ex + n_in)%nat).

(** Two inhibitory neurons and no excitatory one, each connected to the
    other, with delay 1 everywhere. *)
Definition inhibitory_pair : ModularNetwork :=
  mkModularNetwork 0 [] [] [0%nat; 1%nat] [[0; 1]; [1; 0]]
    [[1; 1]; [1; 1]]%Z [[qc (-1) 2; qc (-1) 2]; [qc (-1) 2; qc (-1) 2]].

(** * Proofs *)

Ltac run_method :=
  cbv [mbind method_bind mbind_method gets read modify ret raise]; simpl.

(** ** Comparisons *)

Lemma below_half_spec (x : Z) : below_half x = true <-> (x < 1)%Z.
Proof.
  unfold below_half, qc, Qccompare, Q2Qc; simpl this.
  rewrite <- Qred_compare. unfold Qcompare; simpl.
  change (1 * 1)%Z with 1%Z.
  destruct (x * 2 ?= 1)%Z eqn:E.
  - apply Z.compare_eq in E. lia.
  - rewrite Z.compare_lt_iff in E. split; [lia | done].
  - rewrite Z.compare_gt_iff in E. split; [done | lia].
Qed.

Lemma any_below_half_spec (D : list (list Z)) :
  any_below_half D = true <->
  exists row x, row ∈ D /\ x ∈ row /\ (x < 1)%Z.
Proof.
  unfold any_below_half. rewrite existsb_exists. split.
  - intros (row & Hrow & Hx). apply existsb_exists in Hx as (x & Hx & Hlt).
    exists row, x. rewrite !list_elem_of_In, <- below_half_spec. done.
  - intros (row & x & Hrow & Hx & Hlt). exists row.
    rewrite <- list_elem_of_In. split; [done |].
    apply existsb_exists. exists x.
    rewrite <- list_elem_of_In, below_half_spec. done.
Qed.

Lemma Qcgtb_spec (x y : Qc) : Qcgtb x y = true <-> y < x.
Proof.
  unfold Qcgtb. rewrite (Qcgt_alt x y).
  destruct (x ?= y); split; congruence.
Qed.

(** ** The setters *)

(** C8: [setDelays(D)] raises exactly when [D] is not N-by-N, or its dtype is
    not an integer one, or one of its entries is below 1; a call that raises
    leaves the object as it was, and a call that returns has stored the
    entries of [D] as the delay matrix, whatever [Dmax] is: afterwards [_D]
    holds them and every other attribute is as before. *)
Theorem setDelays_validation (self : IzNetwork) (D : array_arg) :
  (is_ok (setDelays D self).1 = false <->
     arg_shape D <> [_N self; _N self]
     \/ int_entries D = None
     \/ exists M row x, int_entries D = Some M
                        /\ row ∈ M /\ x ∈ row /\ (x < 1)%Z)
  /\ (is_ok (setDelays D self).1 = false -> (setDelays D self).2 = self)
  /\ (is_ok (setDelays D self).1 = true ->
      exists M, int_entries D = Some M
        /\ (setDelays D self).2 = with_D M self
        /\ _D (setDelays D self).2 = Some M
        /\ (_Dmax (setDelays D self).2, _N (setDelays D self).2,
            _X (setDelays D self).2, _I (setDelays D self).2,
            _cursor (setDelays D self).2, _lastFired (setDelays D self).2,
            _dt (setDelays D self).2, v (setDelays D self).2,
            u (setDelays D self).2)
           = (_Dmax self, _N self, _X self, _I self, _cursor self,
              _lastFired self, _dt self, v self, u self)
        /\ (_W (setDelays D self).2, _a (setDelays D self).2,
            _b (setDelays D self).2, _c (setDelays D self).2,
            _d (setDelays D self).2)
           = (_W self, _a self, _b self, _c self, _d self)).
Proof.
  unfold setDelays, shape_eqb. run_method.
  case_bool_decide as Hshape; simpl.
  - destruct D as [A | A | A]; simpl in *.
    + destruct (any_below_half (rows A)) eqn:Hany; simpl.
      * apply any_below_half_spec in Hany as (row & x & ? & ? & ?).
        split_and!; [| done | done].
        split; [| done]. intros _. right. right. by exists (rows A), row, x.
      * split_and!; [| done | by exists (rows A)].
        split; [done |]. intros [? | [? | (M & row & x & [= <-] & ? & ? & ?)]];
          [done | done |].
        assert (any_below_half (rows A) = true) as E
          by (apply any_below_half_spec; eauto).
        congruence.
    + split_and!; [| done | done]. split; [by auto | done].
    + split_and!; [| done | done]. split; [by auto | done].
  - split_and!; [| done | done]. split; [by auto | done].
Qed.

(** ** The constructor *)

Lemma init_ok (N Dmax : Z) :
  (0 <= N)%Z -> (0 <= Dmax + 1)%Z -> is_ok (__init__ N Dmax) = true.
Proof.
  intros HN HD. unfold __init__.
  destruct (Z.ltb_spec (Dmax + 1) 0), (Z.ltb_spec N 0); simpl; done || lia.
Qed.

(** C10, as the code has it: the constructor has no check on [N], and with
    [N = 0] and [Dmax >= 0] it returns an object whose vectors are empty and
    whose buffer has [Dmax + 1] empty rows. *)
Theorem init_zero_neurons (Dmax : Z) :
  (0 <= Dmax)%Z ->
  exists self, __init__ 0 Dmax = Ok self
    /\ _N self = 0%nat /\ v self = [] /\ u self = [] /\ _I self = []
    /\ _lastFired self = []
    /\ _X self = replicate (Z.to_nat (Dmax + 1)) [].
Proof.
  intros HD. unfold __init__.
  destruct (Z.ltb_spec (Dmax + 1) 0); [lia |]. simpl.
  eexists. split; [reflexivity |]. simpl. done.
Qed.

Lemma init_zero_neurons_witness :
  exists self, __init__ 0 20 = Ok self
    /\ _N self = 0%nat /\ v self = [] /\ u self = [] /\ _I self = []
    /\ _lastFired self = []
    /\ _X self = replicate (Z.to_nat (20 + 1)) [].
Proof. apply (init_zero_neurons 20). lia. Defined.

(** C10 fails on the code: a network of no neurons and [Dmax = 20] is
    constructed, not rejected. *)
Lemma init_zero_neurons_accepted : is_ok (__init__ 0 20) = true.
Proof. reflexivity. Qed.

(** ** [update] in closed form *)

Lemma repeatM_euler_substep (k : nat) (I a b : list Qc) :
  forall (fired : list bool) (s : IzNetwork),
    _a s = Some a -> _b s = Some b ->
    let st := Nat.iter k (substep (_dt s) a b I) (fired, v s, u s) in
    repeatM k (euler_substep I) fired s
    = (Ok st.1.1, with_u st.2 (with_v st.1.2 s)).
Proof.
  induction k as [| k IH]; intros fired s Ha Hb.
  - simpl. unfold ret. by destruct s.
  - rewrite Nat.iter_succ_r. simpl repeatM.
    unfold mbind_method at 1. unfold euler_substep at 1. run_method.
    rewrite Ha; simpl. rewrite Hb; simpl.
    erewrite IH by (simpl; eassumption). simpl. reflexivity.
Qed.

Lemma forM_scatter_one (l : list nat) (W : list (list Qc))
    (D : list (list Z)) :
  forall s : IzNetwork,
    _W s = Some W -> _D s = Some D ->
    forM l scatter_one tt s
    = (Ok tt, with_X (scatter (_Dmax s) (_cursor s) D W l (_X s)) s).
Proof.
  induction l as [| i l IH]; intros s HW HD.
  - simpl. unfold ret. by destruct s.
  - simpl forM. unfold mbind_method at 1. unfold scatter_one at 1.
    run_method. rewrite HD; simpl. rewrite HW; simpl.
    erewrite IH by (simpl; eassumption). simpl. reflexivity.
Qed.

Lemma update_eq (self : IzNetwork) (a b c d : list Qc)
    (W : list (list Qc)) (D : list (list Z)) :
  configured self a b c d W D -> _Dmax self <> 0%nat ->
  _lastFired self <> [] ->
  update self = (Ok (update_post self a b c d W D).1,
                 (update_post self a b c d W D).2).
Proof.
  intros [Ha Hb Hc Hd HW HD] HM HF.
  remember (update_post self a b c d W D) as post eqn:Hpost.
  unfold update. run_method. rewrite Hc; simpl.
  destruct (decide (_lastFired self = [])) as [| _]; [done |]. simpl.
  rewrite Hd; simpl.
  destruct (Nat.eqb_spec (_Dmax self) 0) as [| _]; [done |]. simpl.
  erewrite repeatM_euler_substep by (simpl; eassumption). simpl.
  erewrite forM_scatter_one by (simpl; eassumption). simpl.
  subst post. reflexivity.
Qed.

Lemma repeatM_unset (k : nat) (I : list Qc) (fired : list bool)
    (s : IzNetwork) :
  k <> 0%nat -> _a s = None \/ _b s = None ->
  exists s', repeatM k (euler_substep I) fired s = (Raise AttributeError, s').
Proof.
  intros Hk Hab. destruct k as [| k]; [done |].
  simpl repeatM. unfold mbind_method at 1, euler_substep at 1. run_method.
  destruct (_a s) as [a |]; simpl; [| by eexists].
  destruct (_b s) as [b |]; simpl; [| by eexists].
  by destruct Hab.
Qed.

Lemma forM_unset (l : list nat) (s : IzNetwork) :
  l <> [] -> _D s = None \/ _W s = None ->
  exists s', forM l scatter_one tt s = (Raise AttributeError, s').
Proof.
  intros Hl HDW. destruct l as [| i l]; [done |].
  simpl forM. unfold mbind_method at 1, scatter_one at 1. run_method.
  destruct (_D s) as [D |]; simpl; [| by eexists].
  destruct (_W s) as [W |]; simpl; [| by eexists].
  by destruct HDW.
Qed.

(** A call that returns has found the parameters set and at least one
    buffer slot, and the weights and delays too when a neuron fired; it
    returns and leaves what [update_post] says ([scatter] over no firing
    neuron reads neither the weights nor the delays). *)
Lemma update_inv (self : IzNetwork) (fired_idx : list nat) (self' : IzNetwork) :
  _dt self = qc 1 10 ->
  update self = (Ok fired_idx, self') ->
  exists a b c d,
    _a self = Some a /\ _b self = Some b /\ _c self = Some c
    /\ _d self = Some d /\ _Dmax self <> 0%nat
    /\ (fired_idx, self')
       = update_post self a b c d (default [] (_W self)) (default [] (_D self)).
Proof.
  intros Hdt.
  assert (substeps (_dt self) <> 0%nat) as HK by (by rewrite Hdt).
  remember (update_post self) as post eqn:Hpost.
  unfold update. run_method.
  destruct (_c self) as [c |] eqn:Hc; simpl; [| done].
  destruct (decide (_lastFired self = [])) as [| _]; simpl; [done |].
  destruct (_d self) as [d |] eqn:Hd; simpl; [| done].
  destruct (Nat.eqb_spec (_Dmax self) 0) as [| HM]; simpl; [done |].
  destruct (_a self) as [a |] eqn:Ha; cycle 1.
  { edestruct repeatM_unset as [s' ->]; [exact HK | left; exact Ha | done]. }
  destruct (_b self) as [b |] eqn:Hb; cycle 1.
  { edestruct repeatM_unset as [s' ->]; [exact HK | right; exact Hb | done]. }
  erewrite repeatM_euler_substep by (simpl; eassumption). simpl.
  match goal with |- context [np_where ?m] => set (fired := m) end.
  assert (fired = (substates self a b c d (substeps (_dt self))).1.1) as Hf
    by reflexivity.
  destruct (np_where fired) as [| i l] eqn:Hfired.
  - simpl. unfold ret. intros [= <- <-].
    exists a, b, c, d. split_and!; try done.
    subst post. unfold update_post. rewrite <- Hf, Hfired. reflexivity.
  - destruct (_D self) as [D |] eqn:HD; cycle 1.
    { edestruct forM_unset as [s' ->];
        [| left; simpl; exact HD | done]. done. }
    destruct (_W self) as [W |] eqn:HW; cycle 1.
    { edestruct forM_unset as [s' ->];
        [| right; simpl; exact HW | done]. done. }
    erewrite forM_scatter_one by (simpl; eassumption). simpl.
    intros [= <- <-].
    exists a, b, c, d. split_and!; try done.
    subst post. unfold update_post. rewrite <- Hf, Hfired. reflexivity.
Qed.

(** A call on a network without neurons raises. *)
Lemma update_no_neurons (self : IzNetwork) :
  _lastFired self = [] -> is_ok (update self).1 = false.
Proof.
  intros HF. unfold update. run_method.
  destruct (_c self) as [c |]; simpl; [| done].
  destruct (decide (_lastFired self = [])) as [_ |]; [done | done].
Qed.

(** ** Shapes *)

Lemma np_where_from_spec (mask : list bool) :
  forall n i, i ∈ where_from n mask <->
              (n <= i)%nat /\ mask !! (i - n)%nat = Some true.
Proof.
  induction mask as [| b mask IH]; intros n i; simpl.
  - rewrite elem_of_nil. split; [done | by intros [_ ?]].
  - rewrite elem_of_app, IH. destruct (decide (i = n)) as [-> | Hne].
    + rewrite Nat.sub_diag. simpl. destruct b.
      * rewrite list_elem_of_singleton. split; [auto with lia | auto].
      * rewrite elem_of_nil. split; [intros [[] | [? _]]; lia |].
        by intros [_ ?].
    + split.
      * intros [Hin | [Hle Hl]].
        { destruct b; [apply list_elem_of_singleton in Hin; done |].
          by apply elem_of_nil in Hin. }
        split; [lia |].
        replace (i - n)%nat with (S (i - S n)) by lia. done.
      * intros [Hle Hl]. right. split; [lia |].
        replace (i - n)%nat with (S (i - S n)) in Hl by lia. done.
Qed.

Lemma elem_of_np_where (mask : list bool) (i : nat) :
  i ∈ np_where mask <-> mask !! i = Some true.
Proof.
  unfold np_where. rewrite np_where_from_spec, Nat.sub_0_r.
  split; [by intros [_ ?] | auto with lia].
Qed.

Lemma NoDup_where_from (mask : list bool) :
  forall n, NoDup (where_from n mask).
Proof.
  induction mask as [| b mask IH]; intros n; simpl; [constructor |].
  destruct b; simpl; [| apply IH].
  constructor; [| apply IH].
  rewrite np_where_from_spec. lia.
Qed.

Lemma NoDup_np_where (mask : list bool) : NoDup (np_where mask).
Proof. apply NoDup_where_from. Qed.

Lemma substates_length (dt : Qc) (a b I : list Qc) (k : nat)
    (st : list bool * list Qc * list Qc) :
  let st' := Nat.iter k (substep dt a b I) st in
  length st'.1.1 = length st.1.1
  /\ length st'.1.2 = length st.1.2
  /\ length st'.2 = length st.2.
Proof.
  induction k as [| k IH]; simpl; [done |].
  destruct IH as (IH1 & IH2 & IH3).
  unfold substep at 1 3 5. simpl.
  unfold mark_fired, euler_v, euler_u. rewrite !length_imap. done.
Qed.

Lemma substates_lengths (self : IzNetwork) a b c d (k : nat) :
  wf self ->
  length (substates self a b c d k).1.1 = _N self
  /\ length (substates self a b c d k).1.2 = _N self
  /\ length (substates self a b c d k).2 = _N self.
Proof.
  intros [_ _ HlF Hv Hu _].
  destruct (substates_length (_dt self) a b (input_current self) k
              (replicate (_N self) false, reset_v self c, reset_u self d))
    as (H1 & H2 & H3).
  simpl in H1, H2, H3. fold (substates self a b c d k) in H1, H2, H3.
  assert (length (reset_v self c) = _N self) as Hrv
    by (unfold reset_v, mask_assign; by rewrite length_imap).
  assert (length (reset_u self d) = _N self) as Hru
    by (unfold reset_u, mask_iadd; by rewrite length_imap).
  rewrite length_replicate in H1. split_and!; congruence.
Qed.

Lemma scatter_row_length (M cur : nat) Drow Wrow (X : list (list Qc)) :
  length (scatter_row M cur Drow Wrow X) = length X.
Proof. unfold scatter_row. by rewrite length_imap. Qed.

Lemma scatter_row_cols (M cur : nat) Drow Wrow (X : list (list Qc)) (N : nat) :
  (forall r row, X !! r = Some row -> length row = N) ->
  forall r row, scatter_row M cur Drow Wrow X !! r = Some row ->
                length row = N.
Proof.
  intros HX r row. unfold scatter_row.
  rewrite list_lookup_imap_Some. intros (row' & Hrow' & ->).
  rewrite length_imap. eauto.
Qed.

Lemma scatter_shape (M cur : nat) D W (l : list nat) (N : nat) :
  forall X : list (list Qc),
    (forall r row, X !! r = Some row -> length row = N) ->
    length (scatter M cur D W l X) = length X
    /\ (forall r row, scatter M cur D W l X !! r = Some row ->
                      length row = N).
Proof.
  unfold scatter. induction l as [| i l IH]; intros X HX; simpl; [done |].
  destruct (IH (scatter_row M cur (D !!! i) (W !!! i) X)) as [H1 H2].
  { by apply scatter_row_cols. }
  rewrite H1, scatter_row_length. done.
Qed.

Lemma wf_update_post (self : IzNetwork) a b c d W D :
  wf self -> wf (update_post self a b c d W D).2.
Proof.
  intros Hwf.
  destruct (substates_lengths self a b c d (substeps (_dt self)) Hwf)
    as (Hl1 & Hl2 & Hl3).
  destruct Hwf as [HXr HXc HlF Hv Hu Hdt].
  destruct (scatter_shape (_Dmax self) (_cursor self) D W
              (np_where (substates self a b c d (substeps (_dt self))).1.1)
              (_N self) (_X self) HXc) as [Hs1 Hs2].
  split; simpl.
  - by rewrite length_insert, Hs1.
  - intros r row. rewrite list_lookup_insert.
    case_decide; [intros [= <-]; apply length_replicate | apply Hs2].
  - done.
  - unfold mask_fill. by rewrite length_imap.
  - done.
  - done.
Qed.

Lemma setCurrent_eq (self : IzNetwork) (I : list Qc) :
  length I = _N self -> setCurrent I self = (Ok tt, with_I I self).
Proof.
  intros H. unfold setCurrent. run_method.
  by destruct (Nat.eqb_spec (length I) (_N self)).
Qed.

Lemma step_eq (self : IzNetwork) a b c d W D M N (I : list Qc) :
  ready self a b c d W D M N -> N <> 0%nat -> length I = N ->
  step I self = (Ok (update_post (with_I I self) a b c d W D).1,
                 (update_post (with_I I self) a b c d W D).2).
Proof.
  intros [Hwf [] HM HN Hpos] HN0 HI. unfold step.
  unfold mbind, method_bind, mbind_method.
  rewrite setCurrent_eq by congruence.
  apply update_eq; [by split | simpl; congruence |].
  simpl. intros E. apply (f_equal length) in E.
  rewrite (wf_lastFired _ Hwf) in E. simpl in E. congruence.
Qed.

Lemma ready_step (self : IzNetwork) a b c d W D M N (I : list Qc) :
  ready self a b c d W D M N ->
  ready (update_post (with_I I self) a b c d W D).2 a b c d W D M N.
Proof.
  intros [Hwf [] HM HN Hpos]. split; [| by split | done | done | done].
  apply wf_update_post. by destruct Hwf.
Qed.

Lemma state_at_S (self : IzNetwork) a b c d W D M N inputs (t : nat)
    (s : IzNetwork) :
  state_at self inputs t = Ok s -> ready s a b c d W D M N ->
  N <> 0%nat -> length (inputs t) = N ->
  state_at self inputs (S t)
  = Ok (update_post (with_I (inputs t) s) a b c d W D).2.
Proof.
  intros Hs Hr HN0 HI. simpl. rewrite Hs. simpl.
  unfold mbind, result_bind. by erewrite step_eq.
Qed.

Lemma state_at_ready (self : IzNetwork) a b c d W D M N inputs :
  ready self a b c d W D M N -> N <> 0%nat ->
  (forall t, length (inputs t) = N) ->
  forall t, exists s, state_at self inputs t = Ok s
                      /\ ready s a b c d W D M N
                      /\ _cursor s = (_cursor self + t)%nat.
Proof.
  intros Hr HN0 HI t. induction t as [| t (s & Hs & Hrs & Hc)].
  - exists self. simpl. auto with lia.
  - eexists. split; [by eapply state_at_S |].
    split; [by apply ready_step |]. simpl. lia.
Qed.

(** ** Configuration *)

Lemma substeps_dt : substeps (qc 1 10) = 10%nat.
Proof. reflexivity. Qed.

Lemma configure_inv (N Dmax : Z) a b c d (W : ndarray Qc) (D : array_arg)
    (net : IzNetwork) :
  configure N Dmax a b c d W D = Ok net ->
  exists E, int_entries D = Some E
    /\ (0 <= N)%Z /\ (0 <= Dmax + 1)%Z
    /\ net = with_D E (with_W (rows W) (with_abcd a b c d
               {| _Dmax := Z.to_nat (Dmax + 1);
                  _N := Z.to_nat N;
                  _X := zeros2 (Z.to_nat (Dmax + 1)) (Z.to_nat N);
                  _I := zeros (Z.to_nat N);
                  _cursor := 0;
                  _lastFired := replicate (Z.to_nat N) false;
                  _dt := qc 1 10;
                  v := replicate (Z.to_nat N) (qc (-65) 1);
                  u := replicate (Z.to_nat N) (qc (-1) 1);
                  _D := None; _W := None;
                  _a := None; _b := None; _c := None; _d := None |})).
Proof.
  unfold configure, __init__.
  destruct (Z.ltb_spec (Dmax + 1) 0); [done |].
  destruct (Z.ltb_spec N 0); [done |]. simpl.
  unfold setParameters, setWeights, setDelays. run_method.
  destruct (negb (bool_decide _)); [done |]. simpl.
  destruct (negb (shape_eqb (shape W) _)); [done |]. simpl.
  destruct (negb (shape_eqb (arg_shape D) _)); [done |].
  destruct D as [A | A | A]; simpl; [| done | done].
  destruct (any_below_half (rows A)); simpl; [done |].
  intros [= <-]. exists (rows A). done.
Qed.

Lemma configure_ready (N Dmax : Z) a b c d (W : ndarray Qc) (D : array_arg)
    (net : IzNetwork) :
  configure N Dmax a b c d W D = Ok net -> (0 <= Dmax)%Z ->
  exists E, int_entries D = Some E
    /\ ready net a b c d (rows W) E (Z.to_nat (Dmax + 1)) (Z.to_nat N)
    /\ _cursor net = 0%nat
    /\ _X net = zeros2 (Z.to_nat (Dmax + 1)) (Z.to_nat N).
Proof.
  intros (E & HE & HN & HD & ->)%configure_inv HDmax.
  exists E. split; [done |]. split; [| done].
  split; [| by split | done | done | simpl; lia].
  split; simpl; try done; try apply length_replicate.
  intros r row [-> _]%lookup_replicate_1. apply length_replicate.
Qed.

(** ** One call of [update] *)

Lemma substates_S (self : IzNetwork) a b c d (k : nat) :
  substates self a b c d (S k)
  = substep (_dt self) a b (input_current self) (substates self a b c d k).
Proof. reflexivity. Qed.

(** A neuron flagged as fired keeps its flag, its [v] and its [u]. *)
Lemma substep_frozen (dt : Qc) a b I (st : list bool * list Qc * list Qc)
    (n : nat) :
  st.1.1 !! n = Some true ->
  (substep dt a b I st).1.1 !! n = Some true
  /\ (substep dt a b I st).1.2 !! n = st.1.2 !! n
  /\ (substep dt a b I st).2 !! n = st.2 !! n.
Proof.
  intros Hf. unfold substep; simpl.
  unfold mark_fired, euler_v, euler_u. rewrite !list_lookup_imap, Hf. simpl.
  rewrite (list_lookup_total_correct _ _ _ Hf).
  split; [done |]. split.
  - by destruct (st.1.2 !! n).
  - by destruct (st.2 !! n).
Qed.

Lemma substates_frozen (self : IzNetwork) a b c d (k1 k2 n : nat) :
  (k1 <= k2)%nat ->
  (substates self a b c d k1).1.1 !! n = Some true ->
  (substates self a b c d k2).1.1 !! n = Some true
  /\ (substates self a b c d k2).1.2 !! n = (substates self a b c d k1).1.2 !! n
  /\ (substates self a b c d k2).2 !! n = (substates self a b c d k1).2 !! n.
Proof.
  intros Hle Hf. induction Hle as [| k2 Hle (IH1 & IH2 & IH3)]; [done |].
  rewrite substates_S.
  destruct (substep_frozen (_dt self) a b (input_current self)
              (substates self a b c d k2) n IH1) as (H1 & H2 & H3).
  split_and!; congruence.
Qed.

(** Line 166: the flag after a sub-step. *)
Lemma substates_flag (self : IzNetwork) a b c d (k n : nat) :
  (substates self a b c d (S k)).1.1 !! n
  = (fun f => f || Qcgtb ((substates self a b c d (S k)).1.2 !!! n) (qc 30 1))
      <$> (substates self a b c d k).1.1 !! n.
Proof.
  rewrite substates_S. unfold substep at 1; simpl.
  unfold mark_fired. by rewrite list_lookup_imap.
Qed.

Lemma substates_fired_iff (self : IzNetwork) a b c d (K n : nat) :
  wf self ->
  (substates self a b c d K).1.1 !! n = Some true <->
  exists k, (1 <= k <= K)%nat
    /\ Qcgtb ((substates self a b c d k).1.2 !!! n) (qc 30 1) = true.
Proof.
  intros Hwf. induction K as [| K IH].
  - simpl. split; [| intros (k & ? & _); lia].
    intros [? _]%lookup_replicate_1. done.
  - rewrite substates_flag.
    destruct (substates_lengths self a b c d K Hwf) as (HlK & _ & _).
    destruct (substates_lengths self a b c d (S K) Hwf) as (_ & HvK & _).
    destruct (decide (n < _N self)%nat) as [Hn | Hn].
    + destruct (lookup_lt_is_Some_2 (substates self a b c d K).1.1 n)
        as [f Hf]; [lia |].
      rewrite Hf. simpl. split.
      * intros [= Hor]. apply orb_true_iff in Hor as [-> | Hgt].
        { apply IH in Hf as (k & ? & ?). exists k. auto with lia. }
        exists (S K). auto with lia.
      * intros (k & Hk & Hgt). f_equal. apply orb_true_iff.
        destruct (decide (k = S K)) as [-> | Hne]; [by right |].
        left. assert ((substates self a b c d K).1.1 !! n = Some true) as E.
        { apply IH. exists k. auto with lia. }
        congruence.
    + rewrite (lookup_ge_None_2 (substates self a b c d K).1.1 n) by lia.
      simpl. split; [done |]. intros (k & Hk & Hgt).
      destruct (substates_lengths self a b c d k Hwf) as (_ & Hvk & _).
      rewrite list_lookup_total_alt, lookup_ge_None_2 in Hgt by lia.
      done.
Qed.

(** C5: within one call of [update], a neuron whose membrane potential
    exceeds 30 at the end of a sub-step keeps that [v] and its [u] through
    all the later sub-steps of the call ([substates self a b c d k] is the
    state of the loop of the call after [k] sub-steps). *)
Theorem fired_this_millisecond_freeze (self : IzNetwork) a b c d
    (k1 k2 n : nat) :
  wf self -> (1 <= k1 <= k2)%nat ->
  Qcgtb ((substates self a b c d k1).1.2 !!! n) (qc 30 1) = true ->
  (substates self a b c d k2).1.2 !! n = (substates self a b c d k1).1.2 !! n
  /\ (substates self a b c d k2).2 !! n = (substates self a b c d k1).2 !! n.
Proof.
  intros Hwf [H1 H12] Hgt.
  assert ((substates self a b c d k1).1.1 !! n = Some true) as Hf.
  { apply substates_fired_iff; [done |]. exists k1. auto with lia. }
  by destruct (substates_frozen self a b c d k1 k2 n H12 Hf) as (_ & ? & ?).
Qed.

Lemma fired_this_millisecond_freeze_witness :
  exists net, one_neuron (qc (-65) 1) = Ok net /\
    let self := with_I [qc 1000 1] net in
    (substates self [0] [0] [qc (-65) 1] [0] 10).1.2 !! 0%nat
    = (substates self [0] [0] [qc (-65) 1] [0] 1).1.2 !! 0%nat
    /\ (substates self [0] [0] [qc (-65) 1] [0] 10).2 !! 0%nat
       = (substates self [0] [0] [qc (-65) 1] [0] 1).2 !! 0%nat.
Proof.
  eexists. split; [reflexivity |].
  apply (fired_this_millisecond_freeze _ [0] [0] [qc (-65) 1] [0] 1 10 0).
  - split; simpl; try reflexivity.
    intros [| [| r]] row; simpl; intros [= <-]; reflexivity.
  - lia.
  - vm_compute. reflexivity.
Defined.

Lemma lastFired_nonempty (self : IzNetwork) :
  wf self -> _N self <> 0%nat -> _lastFired self <> [].
Proof.
  intros Hwf HN E. apply (f_equal length) in E.
  rewrite (wf_lastFired _ Hwf) in E. done.
Qed.

Lemma update_returns (self : IzNetwork) a b c d W D M N :
  ready self a b c d W D M N -> N <> 0%nat -> is_ok (update self).1 = true.
Proof.
  intros [Hwf Hcfg HM HN Hpos] HN0.
  rewrite (update_eq _ _ _ _ _ _ _ Hcfg); [done | congruence |].
  apply lastFired_nonempty; [done | congruence].
Qed.

(** C7: a call of [update] that returns, returns exactly the neurons whose
    membrane potential exceeded 30 at the end of one of the sub-steps of the
    call; after the call the membrane potential of each of them is 30, and
    the new last-fired mask is true exactly at them.  On a configured
    network with at least one neuron the call does return. *)
Theorem firing_set_postcondition (self : IzNetwork) :
  wf self ->
  (forall fired_idx self' a b c d,
      update self = (Ok fired_idx, self') ->
      _a self = Some a -> _b self = Some b ->
      _c self = Some c -> _d self = Some d ->
      (forall n, n ∈ fired_idx <->
         exists k, (1 <= k <= substeps (_dt self))%nat
           /\ Qcgtb ((substates self a b c d k).1.2 !!! n) (qc 30 1) = true)
      /\ (forall n, n ∈ fired_idx -> v self' !! n = Some (qc 30 1))
      /\ length (_lastFired self') = _N self
      /\ (forall n, n ∈ fired_idx <-> _lastFired self' !! n = Some true))
  /\ (forall a b c d W D M N,
        ready self a b c d W D M N -> N <> 0%nat ->
        is_ok (update self).1 = true).
Proof.
  intros Hwf. split; [| apply update_returns].
  intros fired_idx self' a b c d Hup Ha Hb Hc Hd.
  destruct (update_inv _ _ _ (wf_dt _ Hwf) Hup)
    as (a' & b' & c' & d' & Ha' & Hb' & Hc' & Hd' & HM & Hpost).
  assert (a' = a) as -> by congruence. assert (b' = b) as -> by congruence.
  assert (c' = c) as -> by congruence. assert (d' = d) as -> by congruence.
  injection Hpost as -> ->.
  set (K := substeps (_dt self)).
  destruct (substates_lengths self a b c d K Hwf) as (Hlf & Hlv & Hlu).
  simpl. fold K. split_and!.
  - intros n. rewrite elem_of_np_where. by apply substates_fired_iff.
  - intros n Hn%elem_of_np_where. unfold mask_fill.
    rewrite list_lookup_imap, (list_lookup_total_correct _ _ _ Hn).
    destruct (lookup_lt_is_Some_2 (substates self a b c d K).1.2 n)
      as [x ->]; [| done].
    apply lookup_lt_Some in Hn. lia.
  - done.
  - intros n. apply elem_of_np_where.
Qed.

Lemma wf_with_I (self : IzNetwork) (I : list Qc) :
  wf self -> wf (with_I I self).
Proof. intros []. by split. Qed.

Lemma two_neurons_wf (net : IzNetwork) (I : list Qc) :
  two_neurons 1 1 = Ok net -> wf (with_I I net).
Proof.
  intros H. apply wf_with_I.
  destruct (configure_ready 2 1 _ _ _ _ _ _ _ H) as (E & _ & Hr & _); [lia |].
  apply Hr.
Qed.

Lemma two_neurons_kicked (net : IzNetwork) :
  two_neurons 1 1 = Ok net ->
  update (with_I (kick 0) net)
  = (Ok (update_post (with_I (kick 0) net) [0; 0] [0; 0]
           [qc (-65) 1; qc (-65) 1] [0; 0]
           [[0; qc 5 1]; [0; 0]] [[1; 1]; [1; 1]]%Z).1,
     (update_post (with_I (kick 0) net) [0; 0] [0; 0]
        [qc (-65) 1; qc (-65) 1] [0; 0]
        [[0; qc 5 1]; [0; 0]] [[1; 1]; [1; 1]]%Z).2).
Proof.
  intros [= <-]. apply update_eq; [by split | done | done].
Qed.

Lemma firing_set_postcondition_witness :
  exists net fired_idx self',
    two_neurons 1 1 = Ok net
    /\ update (with_I (kick 0) net) = (Ok fired_idx, self')
    /\ (forall n, n ∈ fired_idx <->
          exists k, (1 <= k <= substeps (_dt (with_I (kick 0) net)))%nat
            /\ Qcgtb ((substates (with_I (kick 0) net) [0; 0] [0; 0]
                         [qc (-65) 1; qc (-65) 1] [0; 0] k).1.2 !!! n)
                 (qc 30 1) = true)
    /\ (forall n, n ∈ fired_idx -> v self' !! n = Some (qc 30 1))
    /\ length (_lastFired self') = _N (with_I (kick 0) net)
    /\ (forall n, n ∈ fired_idx <-> _lastFired self' !! n = Some true).
Proof.
  eexists _, _, _. split; [reflexivity |].
  split; [apply two_neurons_kicked; reflexivity |].
  apply (proj1 (firing_set_postcondition _
                  (two_neurons_wf _ (kick 0) eq_refl)) _ _
           [0; 0] [0; 0] [qc (-65) 1; qc (-65) 1] [0; 0]);
    [apply two_neurons_kicked | ..]; reflexivity.
Defined.

(** C2: when a call of [update] returns, the buffer slot under the cursor
    the call started with, the one the call consumed, holds zeros only, and
    the cursor has moved on by one.  On a configured network with at least
    one neuron the call does return. *)
Theorem consumed_slot_cleared (self : IzNetwork) :
  wf self ->
  (forall fired_idx self',
      update self = (Ok fired_idx, self') ->
      _X self' !! (_cursor self mod _Dmax self)%nat = Some (zeros (_N self))
      /\ _cursor self' = S (_cursor self))
  /\ (forall a b c d W D M N,
        ready self a b c d W D M N -> N <> 0%nat ->
        is_ok (update self).1 = true).
Proof.
  intros Hwf. split; [| apply update_returns].
  intros fired_idx self' Hup.
  destruct (update_inv _ _ _ (wf_dt _ Hwf) Hup)
    as (a & b & c & d & Ha & Hb & Hc & Hd & HM & Hpost).
  injection Hpost as -> ->.
  simpl. split; [| done].
  apply list_lookup_insert_eq.
  destruct (scatter_shape (_Dmax self) (_cursor self)
              (default [] (_D self)) (default [] (_W self))
              (np_where (substates self a b c d (substeps (_dt self))).1.1)
              (_N self) (_X self) (wf_X_cols _ Hwf)) as [-> _].
  rewrite (wf_X_rows _ Hwf). by apply Nat.mod_upper_bound.
Qed.

Lemma consumed_slot_cleared_witness :
  exists net fired_idx self',
    two_neurons 1 1 = Ok net
    /\ update (with_I (kick 0) net) = (Ok fired_idx, self')
    /\ _X self' !! (_cursor (with_I (kick 0) net)
                    mod _Dmax (with_I (kick 0) net))%nat
       = Some (zeros (_N (with_I (kick 0) net)))
    /\ _cursor self' = S (_cursor (with_I (kick 0) net)).
Proof.
  eexists _, _, _. split; [reflexivity |].
  split; [apply two_neurons_kicked; reflexivity |].
  eapply (proj1 (consumed_slot_cleared _
                   (two_neurons_wf _ (kick 0) eq_refl))).
  apply two_neurons_kicked. reflexivity.
Defined.

(** C6, as the code has it: a neuron that fired during a call of [update] is
    reset by the next call before its sub-steps, whatever current is set in
    between: the sub-steps of the next call start from [v = c] and from [u]
    as the firing call left it, plus [d].  What the next call leaves is the
    result of its sub-steps from there.  On a configured network with at
    least one neuron the call does return. *)
Theorem delayed_reset (self : IzNetwork) :
  wf self ->
  (forall fired_idx self' c d n I,
      update self = (Ok fired_idx, self') ->
      _c self = Some c -> _d self = Some d ->
      n ∈ fired_idx ->
      forall a b,
        (substates (with_I I self') a b c d 0).1.2 !! n = Some (c !!! n)
        /\ (substates (with_I I self') a b c d 0).2 !! n
           = Some (u self' !!! n + d !!! n))
  /\ (forall a b c d W D M N,
        ready self a b c d W D M N -> N <> 0%nat ->
        is_ok (update self).1 = true).
Proof.
  intros Hwf. split; [| apply update_returns].
  intros fired_idx self' c d n I Hup Hc Hd Hn a b.
  destruct (update_inv _ _ _ (wf_dt _ Hwf) Hup)
    as (a' & b' & c' & d' & Ha' & Hb' & Hc' & Hd' & HM & Hpost).
  assert (c' = c) as -> by congruence. assert (d' = d) as -> by congruence.
  injection Hpost as -> ->.
  apply elem_of_np_where in Hn.
  set (K := substeps (_dt self)) in *.
  destruct (substates_lengths self a' b' c d K Hwf) as (Hlf & Hlv & Hlu).
  assert (n < _N self)%nat as Hlt by (apply lookup_lt_Some in Hn; lia).
  simpl. fold K. unfold reset_v, reset_u, mask_assign, mask_iadd; simpl.
  rewrite !list_lookup_imap, (list_lookup_total_correct _ _ _ Hn).
  unfold mask_fill. rewrite list_lookup_imap.
  destruct (lookup_lt_is_Some_2 (substates self a' b' c d K).1.2 n)
    as [x ->]; [lia |].
  destruct (lookup_lt_is_Some_2 (substates self a' b' c d K).2 n)
    as [y Hy]; [lia |].
  rewrite Hy, (list_lookup_total_correct _ _ _ Hy). done.
Qed.

Lemma two_neurons_kicked_fired (net : IzNetwork) :
  two_neurons 1 1 = Ok net ->
  0%nat ∈ (update_post (with_I (kick 0) net) [0; 0] [0; 0]
             [qc (-65) 1; qc (-65) 1] [0; 0]
             [[0; qc 5 1]; [0; 0]] [[1; 1]; [1; 1]]%Z).1.
Proof.
  intros [= <-]. apply elem_of_np_where. vm_compute. reflexivity.
Qed.

Lemma delayed_reset_witness :
  exists net fired_idx self',
    two_neurons 1 1 = Ok net
    /\ update (with_I (kick 0) net) = (Ok fired_idx, self')
    /\ 0%nat ∈ fired_idx
    /\ (substates (with_I (kick 1) self') [0; 0] [0; 0]
          [qc (-65) 1; qc (-65) 1] [0; 0] 0).1.2 !! 0%nat
       = Some ([qc (-65) 1; qc (-65) 1] !!! 0%nat)
    /\ (substates (with_I (kick 1) self') [0; 0] [0; 0]
          [qc (-65) 1; qc (-65) 1] [0; 0] 0).2 !! 0%nat
       = Some (u self' !!! 0%nat + [0; 0] !!! 0%nat).
Proof.
  eexists _, _, _. split; [reflexivity |].
  split; [apply two_neurons_kicked; reflexivity |].
  split; [apply two_neurons_kicked_fired; reflexivity |].
  eapply (proj1 (delayed_reset _ (two_neurons_wf _ (kick 0) eq_refl))
            _ _ [qc (-65) 1; qc (-65) 1] [0; 0] 0%nat (kick 1));
    [apply two_neurons_kicked | | | apply two_neurons_kicked_fired];
    reflexivity.
Defined.

(** C6 fails on the code: one neuron with reset potential [c = 29] fires at
    step 0; after the next call, made without input, its membrane potential
    is 30 and not [c], because that call integrates from [c]. *)
Lemma reset_potential_not_kept :
  (net ← one_neuron (qc 29 1);
   f ← fired_at net pulse 0;
   vu ← trajectory net pulse 1;
   Ok (f, vu.1, Qc_eq_bool (vu.1 !!! 0%nat) (qc 29 1)))
  = Ok ([0%nat], [qc 30 1], false).
Proof. vm_compute. reflexivity. Qed.

(** ** The delivery buffer *)

Lemma slot_of_landing (M t : nat) (k : Z) :
  M <> 0%nat -> slot_of M t k = ((t + landing M k) mod M)%nat.
Proof.
  intros HM. unfold slot_of, landing.
  rewrite <- Zplus_mod_idemp_r.
  assert (0 <= k mod Z.of_nat M < Z.of_nat M)%Z as Hr
    by (apply Z.mod_pos_bound; lia).
  rewrite <- (Z2Nat.id (k mod Z.of_nat M)) at 1 by lia.
  rewrite <- Nat2Z.inj_add, <- Nat2Z.inj_mod. apply Nat2Z.id.
Qed.

Lemma landing_lt (M : nat) (k : Z) : M <> 0%nat -> (landing M k < M)%nat.
Proof.
  intros HM. unfold landing.
  assert (0 <= k mod Z.of_nat M < Z.of_nat M)%Z
    by (apply Z.mod_pos_bound; lia).
  lia.
Qed.

Lemma landing_small (M : nat) (k : Z) :
  (0 <= k < Z.of_nat M)%Z -> landing M k = Z.to_nat k.
Proof. intros Hk. unfold landing. by rewrite Z.mod_small. Qed.

Lemma mod_add_lt (M x e : nat) :
  (0 < e < M)%nat -> ((x + e) mod M)%nat <> (x mod M)%nat.
Proof.
  intros He.
  pose proof (Nat.div_mod_eq x M) as Hx.
  pose proof (Nat.mod_upper_bound x M ltac:(lia)) as Hm.
  destruct (le_lt_dec M (x mod M + e)) as [Hge | Hlt].
  - rewrite <- (Nat.mod_unique (x + e) M (S (x / M)) (x mod M + e - M)); lia.
  - rewrite <- (Nat.mod_unique (x + e) M (x / M) (x mod M + e)); lia.
Qed.

Lemma mod_add_inj (M t q q' : nat) :
  (q < M)%nat -> (q' < M)%nat ->
  ((t + q) mod M)%nat = ((t + q') mod M)%nat -> q = q'.
Proof.
  intros Hq Hq' E. destruct (lt_eq_lt_dec q q') as [[Hlt | ->] | Hlt]; [| done |].
  - exfalso. apply (mod_add_lt M (t + q) (q' - q)); [lia |].
    by replace (t + q + (q' - q))%nat with (t + q')%nat by lia.
  - exfalso. apply (mod_add_lt M (t + q') (q - q')); [lia |].
    by replace (t + q' + (q - q'))%nat with (t + q)%nat by lia.
Qed.

Lemma scatter_row_cell (M cur : nat) Drow Wrow (X : list (list Qc))
    (r j : nat) :
  cell (scatter_row M cur Drow Wrow X) r j
  = (fun x => if bool_decide (slot_of M cur (Drow !!! j) = r)
              then x + Wrow !!! j else x) <$> cell X r j.
Proof.
  unfold cell, scatter_row. rewrite list_lookup_imap.
  destruct (X !! r) as [row |]; simpl; [| done].
  by rewrite list_lookup_imap.
Qed.

(** The scatter loop, when the only nonzero weight is [W[i,j] = w]. *)
Lemma scatter_cell_single_edge (M cur : nat) D W (i j : nat) (w : Qc)
    (l : list nat) :
  single_edge W i j w -> NoDup l ->
  forall (X : list (list Qc)) (r j' : nat),
    cell (scatter M cur D W l X) r j'
    = (fun x => if bool_decide (i ∈ l /\ j' = j
                                /\ slot_of M cur (delay_of D i j) = r)
                then x + w else x) <$> cell X r j'.
Proof.
  intros HW. unfold scatter.
  induction l as [| i' l IH]; intros Hnd X r j'; cbn [foldl].
  - destruct (cell X r j') as [x |]; cbn [fmap option_fmap option_map];
      [| done].
    rewrite bool_decide_eq_false_2; [done |].
    intros [[]%elem_of_nil _].
  - apply NoDup_cons in Hnd as [Hni Hnd].
    rewrite (IH Hnd), scatter_row_cell, HW.
    destruct (cell X r j') as [x |]; cbn [fmap option_fmap option_map];
      [| done].
    f_equal.
    destruct (decide (i' = i /\ j' = j)) as [[-> ->] | Hne].
    + rewrite (bool_decide_eq_true_2 (i = i /\ j = j)) by done.
      fold (delay_of D i j).
      destruct (decide (slot_of M cur (delay_of D i j) = r)) as [Hs | Hs].
      * rewrite (bool_decide_eq_true_2 _ Hs).
        rewrite bool_decide_eq_false_2 by (intros [? _]; done).
        rewrite bool_decide_eq_true_2; [done |].
        split; [apply list_elem_of_here | done].
      * rewrite (bool_decide_eq_false_2 _ Hs).
        rewrite !bool_decide_eq_false_2; [done | |]; intros (_ & _ & ?); done.
    + rewrite (bool_decide_eq_false_2 _ Hne).
      assert ((if bool_decide (slot_of M cur ((D !!! i') !!! j') = r)
               then x + 0 else x) = x) as ->.
      { case_bool_decide; [apply Qcplus_0_r | done]. }
      apply (f_equal (fun b : bool => if b then x + w else x)).
      apply bool_decide_ext. rewrite elem_of_cons.
      split; [tauto |]. intros [[-> | ?] [-> ?]]; [tauto | done].
Qed.

Lemma fires_eq (net : IzNetwork) a b c d W D M N inputs (t : nat)
    (s : IzNetwork) (i : nat) :
  state_at net inputs t = Ok s -> ready s a b c d W D M N ->
  N <> 0%nat -> length (inputs t) = N ->
  fires net inputs t i
  = bool_decide (i ∈ (update_post (with_I (inputs t) s) a b c d W D).1).
Proof.
  intros Hs Hr HN0 HI. unfold fires, fired_at. rewrite Hs. simpl.
  unfold mbind, result_bind. by erewrite step_eq.
Qed.

Lemma zeros2_cell (M N r j : nat) :
  (r < M)%nat -> (j < N)%nat -> cell (zeros2 M N) r j = Some 0.
Proof.
  intros Hr Hj. unfold cell, zeros2, zeros.
  rewrite lookup_replicate_2 by done. simpl. by apply lookup_replicate_2.
Qed.

(** What the buffer holds before step [t]: the slot [q] steps ahead of the
    cursor holds [w] for neuron [j] when neuron [i] fired at the step whose
    contribution lands there, and zero everywhere else. *)
Lemma buffer_invariant (net : IzNetwork) a b c d W D M N i j w inputs :
  edge_run net a b c d W D M N i j w inputs ->
  forall t, exists s,
    state_at net inputs t = Ok s
    /\ ready s a b c d W D M N
    /\ _cursor s = t
    /\ forall q j', (q < M)%nat -> (j' < N)%nat ->
         cell (_X s) ((t + q) mod M)%nat j'
         = Some (if bool_decide (j' = j)
                    && scheduled (fun t' => fires net inputs t' i)
                         (landing M (delay_of D i j)) t q
                 then w else 0).
Proof.
  intros [Hr Hc HX HW Hj HI].
  set (f := fun t' => fires net inputs t' i).
  set (r := landing M (delay_of D i j)).
  assert (M <> 0%nat) as HM by apply Hr.
  assert (N <> 0%nat) as HN0 by lia.
  assert (r < M)%nat as HrM by (by apply landing_lt).
  induction t as [| t (s & Hs & Hrs & Hcs & IH)].
  - exists net. split_and!; [done | done | done |].
    intros q j' Hq Hj'. rewrite HX, zeros2_cell;
      [| by apply Nat.mod_upper_bound | done].
    unfold scheduled.
    rewrite (bool_decide_eq_false_2 (q < r /\ r <= 0 + q)%nat) by lia.
    by rewrite andb_false_r.
  - pose proof (HI t) as HIt.
    exists (update_post (with_I (inputs t) s) a b c d W D).2.
    split; [by eapply state_at_S |].
    split; [by apply ready_step |].
    split; [simpl; lia |].
    intros q j' Hq Hj'.
    pose proof (fires_eq net a b c d W D M N inputs t s i Hs Hrs HN0 HIt)
      as Hf.
    fold (f t) in Hf.
    destruct Hrs as [Hwf Hcfg HMs HNs _].
    destruct (scatter_shape M t D W
                (update_post (with_I (inputs t) s) a b c d W D).1 N (_X s))
      as [Hlen _].
    { rewrite <- HNs. apply Hwf. }
    simpl. simpl in Hf, Hlen. rewrite HMs, HNs, Hcs.
    unfold cell. rewrite list_lookup_insert.
    destruct (decide (q = M - 1)%nat) as [-> | Hq'].
    + replace (S (t + (M - 1))) with (t + 1 * M)%nat by lia.
      rewrite Nat.Div0.mod_add.
      rewrite decide_True; simpl.
      * unfold zeros. rewrite lookup_replicate_2 by done.
        unfold scheduled.
        rewrite (bool_decide_eq_false_2 (M - 1 < r /\ _)%nat) by lia.
        by rewrite andb_false_r.
      * split; [done |]. rewrite Hlen, (wf_X_rows _ Hwf), HMs.
        by apply Nat.mod_upper_bound.
    + replace (S (t + q)) with (t + S q)%nat by lia.
      rewrite decide_False; simpl.
      * fold (cell (scatter M t D W
                      (np_where (substates (with_I (inputs t) s) a b c d
                                   (substeps (_dt s))).1.1) (_X s))
                   ((t + S q) mod M) j').
        rewrite (scatter_cell_single_edge M t D W i j w _ HW
                   (NoDup_np_where _)).
        rewrite IH by (done || lia). simpl. f_equal.
        rewrite (slot_of_landing M t _ HM). fold r.
        unfold scheduled. replace (S t + q)%nat with (t + S q)%nat by lia.
        destruct (decide (r = S q)) as [-> | Hne].
        { rewrite (bool_decide_eq_false_2 (S q < S q /\ _)%nat) by lia.
          rewrite (bool_decide_eq_true_2 (q < S q /\ _)%nat) by lia.
          replace (t + S q - S q)%nat with t by lia.
          rewrite andb_false_l, andb_false_r, andb_true_l, Hf.
          destruct (decide (j' = j)) as [-> | Hjj].
          - rewrite (bool_decide_eq_true_2 (j = j)) by done. simpl.
            case_bool_decide as Hin.
            + rewrite bool_decide_eq_true_2 by done. apply Qcplus_0_l.
            + rewrite bool_decide_eq_false_2; [done |].
              intros (? & _). done.
          - rewrite (bool_decide_eq_false_2 (j' = j)) by done. simpl.
            rewrite bool_decide_eq_false_2; [done |]. intros (_ & ? & _).
            done. }
        rewrite bool_decide_eq_false_2.
        { rewrite (bool_decide_ext (S q < r /\ r <= t + S q)%nat
                     (q < r /\ r <= t + S q)%nat) by lia.
          done. }
        intros (_ & _ & E). apply mod_add_inj in E; [done | done | lia].
      * intros [E _].
        apply (mod_add_lt M t (S q)); [lia |]. by rewrite E.
Qed.

Lemma input_at_edge (net : IzNetwork) a b c d W D M N i j w inputs (t : nat) :
  edge_run net a b c d W D M N i j w inputs ->
  exists I, input_at net inputs t = Ok I
    /\ I !! j = Some (inputs t !!! j
                      + if scheduled (fun t' => fires net inputs t' i)
                             (landing M (delay_of D i j)) t 0
                        then w else 0).
Proof.
  intros Her.
  destruct (buffer_invariant _ _ _ _ _ _ _ _ _ _ _ _ _ Her t)
    as (s & Hs & Hrs & Hcs & Hcell).
  destruct Her as [Hr Hc HX HW Hj HI].
  assert (M <> 0%nat) as HM by apply Hr.
  specialize (Hcell 0%nat j ltac:(lia) Hj).
  rewrite Nat.add_0_r, (bool_decide_eq_true_2 (j = j)) in Hcell by done.
  simpl in Hcell. unfold cell in Hcell.
  destruct (_X s !! (t mod M)%nat) as [row |] eqn:Hrow; [| done].
  simpl in Hcell.
  unfold input_at. rewrite Hs. simpl. unfold mbind, result_bind.
  rewrite setCurrent_eq by (rewrite (rdy_N _ _ _ _ _ _ _ _ _ Hrs); apply HI).
  eexists. split; [reflexivity |].
  unfold input_current, synaptic_input; simpl.
  rewrite Hcs, (rdy_M _ _ _ _ _ _ _ _ _ Hrs).
  rewrite (list_lookup_total_correct _ _ _ Hrow).
  rewrite lookup_zip_with, Hcell.
  rewrite (list_lookup_lookup_total_lt (inputs t) j) by (rewrite HI; done).
  done.
Qed.

Lemma configure_edge_run (N Dmax : Z) a b c d (W : ndarray Qc) (D : ndarray Z)
    (net : IzNetwork) (i j : nat) (w : Qc) (inputs : nat -> list Qc) :
  configure N Dmax a b c d W (IntArray D) = Ok net -> (0 <= Dmax)%Z ->
  single_edge (rows W) i j w -> (j < Z.to_nat N)%nat ->
  (forall s, length (inputs s) = Z.to_nat N) ->
  edge_run net a b c d (rows W) (rows D) (Z.to_nat (Dmax + 1)) (Z.to_nat N)
    i j w inputs.
Proof.
  intros Hcfg HD HW Hj HI.
  destruct (configure_ready _ _ _ _ _ _ _ _ _ Hcfg HD)
    as (E & [= <-] & Hr & Hc & HX).
  by split.
Qed.

(** C1: in a network whose only connection is [i -> j], of weight [w] and
    delay [k] with [1 <= k <= Dmax], if neuron [i] fires at step [t] then
    the input current of neuron [j] at step [t + k] is the external current
    plus [w]; and when [i] fires at no other step, the input current of [j]
    at every other step is the external current plus zero. *)
Theorem delayed_delivery_round_trip (N Dmax : Z) a b c d (W : ndarray Qc)
    (D : ndarray Z) (net : IzNetwork) (inputs : nat -> list Qc)
    (i j : nat) (w : Qc) (k : Z) (t : nat) :
  configure N Dmax a b c d W (IntArray D) = Ok net ->
  single_edge (rows W) i j w ->
  delay_of (rows D) i j = k -> (1 <= k <= Dmax)%Z ->
  (j < Z.to_nat N)%nat ->
  (forall s, length (inputs s) = Z.to_nat N) ->
  fires net inputs t i = true ->
  (exists I, input_at net inputs (t + Z.to_nat k) = Ok I
             /\ I !! j = Some (inputs (t + Z.to_nat k)%nat !!! j + w))
  /\ (forall s, s <> (t + Z.to_nat k)%nat ->
        (forall t', fires net inputs t' i = true -> t' = t) ->
        exists I, input_at net inputs s = Ok I
                  /\ I !! j = Some (inputs s !!! j + 0)).
Proof.
  intros Hcfg HW Hk Hrange Hj HI Hfire.
  pose proof (configure_edge_run _ _ _ _ _ _ _ _ _ i j w inputs Hcfg
                ltac:(lia) HW Hj HI) as Her.
  assert (landing (Z.to_nat (Dmax + 1)) (delay_of (rows D) i j) = Z.to_nat k)
    as Hland by (rewrite Hk; apply landing_small; lia).
  split.
  - destruct (input_at_edge _ _ _ _ _ _ _ _ _ _ _ _ _ (t + Z.to_nat k) Her)
      as (I & HIa & HIj).
    exists I. split; [done |]. rewrite HIj, Hland. unfold scheduled.
    rewrite bool_decide_eq_true_2 by lia.
    replace (t + Z.to_nat k + 0 - Z.to_nat k)%nat with t by lia.
    by rewrite Hfire.
  - intros s Hs Honly.
    destruct (input_at_edge _ _ _ _ _ _ _ _ _ _ _ _ _ s Her)
      as (I & HIa & HIj).
    exists I. split; [done |]. rewrite HIj, Hland. unfold scheduled.
    destruct (fires net inputs (s + 0 - Z.to_nat k) i) eqn:Hf;
      [| by rewrite andb_false_r].
    apply Honly in Hf. rewrite bool_decide_eq_false_2; [done | lia].
Qed.

Lemma delayed_delivery_round_trip_witness :
  exists net, two_neurons 1 1 = Ok net /\
    (exists I, input_at net kick (0 + Z.to_nat 1) = Ok I
       /\ I !! 1%nat = Some (kick (0 + Z.to_nat 1)%nat !!! 1%nat + qc 5 1))
    /\ (forall s, s <> (0 + Z.to_nat 1)%nat ->
          (forall t', fires net kick t' 0 = true -> t' = 0%nat) ->
          exists I, input_at net kick s = Ok I
                    /\ I !! 1%nat = Some (kick s !!! 1%nat + 0)).
Proof.
  eexists. split; [reflexivity |].
  apply (delayed_delivery_round_trip 2 1 [0; 0] [0; 0]
           [qc (-65) 1; qc (-65) 1] [0; 0]
           (NdArray [2; 2]%nat [[0; qc 5 1]; [0; 0]])
           (NdArray [2; 2]%nat [[1; 1]; [1; 1]]%Z) _ kick 0 1 (qc 5 1) 1 0).
  - reflexivity.
  - intros [| [| i']] [| [| [| j']]]; reflexivity.
  - reflexivity.
  - lia.
  - simpl; lia.
  - intros [| s]; reflexivity.
  - vm_compute. reflexivity.
Defined.



(** C3 at a failing input: with [Dmax = 1] the delay 3 of the edge 0 -> 1 is
    at least [Dmax + 1]; neuron 0 fires at step 0 and at step 1 the input
    current of neuron 1 is its external current 15 plus the weight 5. *)
Theorem long_delay_is_delivered : long_delay_run = Ok ([0%nat], [15; 20]%Q).
Proof. vm_compute. reflexivity. Qed.

(** * More about [IzNetwork] *)

(** ** When [update] returns *)

Lemma update_eq_gen (self : IzNetwork) (a b c d : list Qc) :
  _a self = Some a -> _b self = Some b -> _c self = Some c ->
  _d self = Some d -> _Dmax self <> 0%nat -> _lastFired self <> [] ->
  np_where (substates self a b c d (substeps (_dt self))).1.1 = []
  \/ (is_Some (_D self) /\ is_Some (_W self)) ->
  update self
  = (Ok (update_post self a b c d
           (default [] (_W self)) (default [] (_D self))).1,
     (update_post self a b c d
        (default [] (_W self)) (default [] (_D self))).2).
Proof.
  intros Ha Hb Hc Hd HM HF [Hnil | [[D HD] [W HW]]].
  - remember (update_post self a b c d (default [] (_W self))
                (default [] (_D self))) as post eqn:Hpost.
    unfold update. run_method. rewrite Hc; simpl.
    destruct (decide (_lastFired self = [])) as [| _]; [done |]. simpl.
    rewrite Hd; simpl.
    destruct (Nat.eqb_spec (_Dmax self) 0) as [| _]; [done |]. simpl.
    erewrite repeatM_euler_substep by (simpl; eassumption). simpl.
    match goal with |- context [np_where ?m] => set (fired := m) end.
    assert (fired = (substates self a b c d (substeps (_dt self))).1.1) as Hf
      by reflexivity.
    rewrite Hf, Hnil. simpl. unfold ret.
    subst post. unfold update_post. rewrite Hnil. reflexivity.
  - rewrite HD, HW. simpl. by apply update_eq.
Qed.

Lemma update_unset (self : IzNetwork) (a b c d : list Qc) :
  _a self = Some a -> _b self = Some b -> _c self = Some c ->
  _d self = Some d -> _Dmax self <> 0%nat -> _lastFired self <> [] ->
  np_where (substates self a b c d (substeps (_dt self))).1.1 <> [] ->
  _D self = None \/ _W self = None ->
  (update self).1 = Raise AttributeError.
Proof.
  intros Ha Hb Hc Hd HM HF Hfired HDW.
  unfold update. run_method. rewrite Hc; simpl.
  destruct (decide (_lastFired self = [])) as [| _]; [done |]. simpl.
  rewrite Hd; simpl.
  destruct (Nat.eqb_spec (_Dmax self) 0) as [| _]; [done |]. simpl.
  erewrite repeatM_euler_substep by (simpl; eassumption). simpl.
  match goal with |- context [np_where ?m] => set (fired := m) end.
  assert (fired = (substates self a b c d (substeps (_dt self))).1.1) as Hf
    by reflexivity.
  edestruct forM_unset as [s' ->]; [| simpl; exact HDW | done].
  by rewrite Hf.
Qed.

(** X5: on an object with the constructor's shapes, [update] returns
    exactly when the four parameter vectors are set, the buffer has at least
    one slot ([Dmax >= 0]), there is at least one neuron (without neurons
    the mask of line 150 is a float array and numpy raises), and either no
    neuron fires in the call or both the weights and the delays are set. *)
Theorem update_returns_iff (self : IzNetwork) :
  wf self ->
  (is_ok (update self).1 = true <->
   exists a b c d,
     _a self = Some a /\ _b self = Some b /\ _c self = Some c
     /\ _d self = Some d /\ _Dmax self <> 0%nat /\ _N self <> 0%nat
     /\ (np_where (substates self a b c d (substeps (_dt self))).1.1 = []
         \/ (is_Some (_D self) /\ is_Some (_W self)))).
Proof.
  intros Hwf. split.
  - destruct (update self) as [[f | e] self'] eqn:Hup; [intros _ | done].
    destruct (update_inv _ _ _ (wf_dt _ Hwf) Hup)
      as (a & b & c & d & Ha & Hb & Hc & Hd & HM & Hpost).
    assert (_lastFired self <> []) as HF.
    { intros E. pose proof (update_no_neurons self E) as E'.
      rewrite Hup in E'. done. }
    exists a, b, c, d. split_and!; try done.
    { intros E. apply HF, nil_length_inv.
      by rewrite (wf_lastFired _ Hwf). }
    destruct (np_where (substates self a b c d (substeps (_dt self))).1.1)
      as [| i l] eqn:Hfired; [by left | right].
    destruct (_D self) as [D |] eqn:HD, (_W self) as [W |] eqn:HW;
      [by split | | |];
      exfalso;
      (assert ((update self).1 = Raise AttributeError) as E
         by (eapply update_unset; eauto; by rewrite Hfired));
      rewrite Hup in E; done.
  - intros (a & b & c & d & Ha & Hb & Hc & Hd & HM & HN & Hcase).
    rewrite (update_eq_gen self a b c d); try done.
    by apply lastFired_nonempty.
Qed.

Lemma update_returns_iff_witness :
  exists net, two_neurons 1 1 = Ok net /\
  (is_ok (update (with_I (kick 0) net)).1 = true <->
   exists a b c d,
     _a (with_I (kick 0) net) = Some a /\ _b (with_I (kick 0) net) = Some b
     /\ _c (with_I (kick 0) net) = Some c
     /\ _d (with_I (kick 0) net) = Some d
     /\ _Dmax (with_I (kick 0) net) <> 0%nat
     /\ _N (with_I (kick 0) net) <> 0%nat
     /\ (np_where (substates (with_I (kick 0) net) a b c d
                     (substeps (_dt (with_I (kick 0) net)))).1.1 = []
         \/ (is_Some (_D (with_I (kick 0) net))
             /\ is_Some (_W (with_I (kick 0) net))))).
Proof.
  eexists. split; [reflexivity |].
  apply update_returns_iff. apply two_neurons_wf. reflexivity.
Defined.

(** X6: a call of [update] that returns keeps the shapes of the object and
    changes none of [N], [Dmax], [dt], the parameters, the weights and the
    delays. *)
Theorem update_keeps_configuration (self : IzNetwork) (fired_idx : list nat)
    (self' : IzNetwork) :
  wf self -> update self = (Ok fired_idx, self') ->
  wf self'
  /\ _N self' = _N self /\ _Dmax self' = _Dmax self /\ _dt self' = _dt self
  /\ _a self' = _a self /\ _b self' = _b self /\ _c self' = _c self
  /\ _d self' = _d self /\ _W self' = _W self /\ _D self' = _D self.
Proof.
  intros Hwf Hup.
  destruct (update_inv _ _ _ (wf_dt _ Hwf) Hup)
    as (a & b & c & d & Ha & Hb & Hc & Hd & HM & Hpost).
  injection Hpost as -> ->. split; [by apply wf_update_post | done].
Qed.

Lemma update_keeps_configuration_witness :
  exists net fired_idx self',
    two_neurons 1 1 = Ok net
    /\ update (with_I (kick 0) net) = (Ok fired_idx, self')
    /\ wf self'
    /\ _N self' = _N (with_I (kick 0) net)
    /\ _Dmax self' = _Dmax (with_I (kick 0) net)
    /\ _dt self' = _dt (with_I (kick 0) net)
    /\ _a self' = _a (with_I (kick 0) net)
    /\ _b self' = _b (with_I (kick 0) net)
    /\ _c self' = _c (with_I (kick 0) net)
    /\ _d self' = _d (with_I (kick 0) net)
    /\ _W self' = _W (with_I (kick 0) net)
    /\ _D self' = _D (with_I (kick 0) net).
Proof.
  eexists _, _, _. split; [reflexivity |].
  split; [apply two_neurons_kicked; reflexivity |].
  eapply (update_keeps_configuration _ _ _
            (two_neurons_wf _ (kick 0) eq_refl)).
  apply two_neurons_kicked. reflexivity.
Defined.

Lemma zip_with_zeros (N : nat) (row : list Qc) :
  length row = N -> zip_with Qcplus (zeros N) row = row.
Proof.
  intros Hlen. apply list_eq. intros n. rewrite lookup_zip_with.
  destruct (row !! n) as [x |] eqn:Hx.
  - unfold zeros. rewrite lookup_replicate_2; simpl.
    + by rewrite Qcplus_0_l.
    + apply lookup_lt_Some in Hx. lia.
  - by destruct (zeros N !! n).
Qed.

(** X7: the external current is consumed once: when [update] returns, the
    pending current is zero, so a next call made without [setCurrent] in
    between computes its input current from the buffer alone. *)
Theorem external_current_one_shot (self : IzNetwork) (fired_idx : list nat)
    (self' : IzNetwork) :
  wf self -> update self = (Ok fired_idx, self') ->
  _I self' = zeros (_N self')
  /\ input_current self' = synaptic_input self'.
Proof.
  intros Hwf Hup.
  destruct (update_keeps_configuration _ _ _ Hwf Hup) as (Hwf' & HN & HM & _).
  destruct (update_inv _ _ _ (wf_dt _ Hwf) Hup)
    as (a & b & c & d & Ha & Hb & Hc & Hd & HMpos & Hpost).
  assert (_I self' = zeros (_N self')) as HI
    by (injection Hpost as -> ->; done).
  split; [done |].
  unfold input_current. rewrite HI. apply zip_with_zeros.
  unfold synaptic_input.
  destruct (lookup_lt_is_Some_2 (_X self') (_cursor self' mod _Dmax self'))
    as [row Hrow].
  { rewrite (wf_X_rows _ Hwf'). apply Nat.mod_upper_bound. congruence. }
  rewrite (list_lookup_total_correct _ _ _ Hrow).
  by apply (wf_X_cols _ Hwf' _ _ Hrow).
Qed.

Lemma external_current_one_shot_witness :
  exists net fired_idx self',
    two_neurons 1 1 = Ok net
    /\ update (with_I (kick 0) net) = (Ok fired_idx, self')
    /\ _I self' = zeros (_N self')
    /\ input_current self' = synaptic_input self'.
Proof.
  eexists _, _, _. split; [reflexivity |].
  split; [apply two_neurons_kicked; reflexivity |].
  eapply (external_current_one_shot _ _ _
            (two_neurons_wf _ (kick 0) eq_refl)).
  apply two_neurons_kicked. reflexivity.
Defined.

(** ** What a call leaves *)

(** X8: after a call of [update] that returns, no membrane potential
    exceeds 30: the neurons that fired show exactly 30 and the others never
    crossed the threshold. *)
Theorem potential_bounded (self : IzNetwork) (fired_idx : list nat)
    (self' : IzNetwork) (n : nat) (x : Qc) :
  wf self -> update self = (Ok fired_idx, self') ->
  v self' !! n = Some x -> x <= qc 30 1.
Proof.
  intros Hwf Hup Hx.
  destruct (update_inv _ _ _ (wf_dt _ Hwf) Hup)
    as (a & b & c & d & Ha & Hb & Hc & Hd & HM & Hpost).
  injection Hpost as -> ->. simpl in Hx.
  set (K := substeps (_dt self)) in *.
  assert (1 <= K)%nat as HK
    by (unfold K; rewrite (wf_dt _ Hwf), substeps_dt; lia).
  unfold mask_fill in Hx. apply list_lookup_imap_Some in Hx as (y & Hy & ->).
  destruct ((substates self a b c d K).1.1 !!! n) eqn:Hf;
    [apply Qcle_refl |].
  destruct (Qclt_le_dec (qc 30 1) y) as [Hgt | Hle]; [exfalso | done].
  assert ((substates self a b c d K).1.1 !! n = Some true) as E.
  { apply substates_fired_iff; [done |]. exists K. split; [lia |].
    apply Qcgtb_spec. by rewrite (list_lookup_total_correct _ _ _ Hy). }
  rewrite (list_lookup_total_correct _ _ _ E) in Hf. done.
Qed.

Lemma potential_bounded_witness :
  exists net fired_idx self',
    two_neurons 1 1 = Ok net
    /\ update (with_I (kick 0) net) = (Ok fired_idx, self')
    /\ v self' !! 0%nat = Some (qc 30 1)
    /\ qc 30 1 <= qc 30 1.
Proof.
  eexists _, _, _. split; [reflexivity |].
  split; [apply two_neurons_kicked; reflexivity |].
  assert (v (update_post (with_I (kick 0) (with_D [[1; 1]; [1; 1]]%Z
               (with_W [[0; qc 5 1]; [0; 0]]
                  (with_abcd [0; 0] [0; 0] [qc (-65) 1; qc (-65) 1] [0; 0]
                     (mkIzNetwork (Z.to_nat (1 + 1)) (Z.to_nat 2)
                        (zeros2 (Z.to_nat (1 + 1)) (Z.to_nat 2))
                        (zeros (Z.to_nat 2)) 0
                        (replicate (Z.to_nat 2) false) (qc 1 10)
                        (replicate (Z.to_nat 2) (qc (-65) 1))
                        (replicate (Z.to_nat 2) (qc (-1) 1))
                        None None None None None None)))))
             [0; 0] [0; 0] [qc (-65) 1; qc (-65) 1] [0; 0]
             [[0; qc 5 1]; [0; 0]] [[1; 1]; [1; 1]]%Z).2 !! 0%nat
          = Some (qc 30 1)) as Hv by (vm_compute; reflexivity).
  split; [exact Hv |].
  eapply (potential_bounded _ _ _ 0 (qc 30 1)
            (two_neurons_wf _ (kick 0) eq_refl));
    [apply two_neurons_kicked; reflexivity | exact Hv].
Defined.

Lemma scatter_cell_untouched (M cur : nat) D W (l : list nat) (r j : nat) :
  (forall i, i ∈ l -> slot_of M cur (delay_of D i j) <> r) ->
  forall X : list (list Qc), cell (scatter M cur D W l X) r j = cell X r j.
Proof.
  unfold scatter. induction l as [| i l IH]; intros Hl X; cbn [foldl];
    [done |].
  rewrite IH by (intros i' Hi'; apply Hl; by apply list_elem_of_further).
  rewrite scatter_row_cell. fold (delay_of D i j).
  rewrite bool_decide_eq_false_2 by (apply Hl; apply list_elem_of_here).
  by destruct (cell X r j).
Qed.

(** X9: the scatter of a call disturbs no other slot: a buffer cell [(r, j)]
    outside the slot the call consumed keeps its value unless a neuron [i]
    that fired in the call has [(cursor + D[i,j]) % (Dmax + 1) = r]; the
    cursor and the sums [cursor + D[i,j]] are [int64], so that numpy's sum
    does not wrap around. *)
Theorem scatter_non_interference (self : IzNetwork) (fired_idx : list nat)
    (self' : IzNetwork) (r j : nat) :
  wf self -> update self = (Ok fired_idx, self') ->
  r <> (_cursor self mod _Dmax self)%nat ->
  int64 (Z.of_nat (_cursor self)) ->
  (forall i, i ∈ fired_idx ->
     int64 (Z.of_nat (_cursor self) + delay_of (default [] (_D self)) i j)) ->
  (forall i, i ∈ fired_idx ->
     slot_of (_Dmax self) (_cursor self)
       (delay_of (default [] (_D self)) i j) <> r) ->
  cell (_X self') r j = cell (_X self) r j.
Proof.
  intros Hwf Hup Hr _ _ Hslot.
  destruct (update_inv _ _ _ (wf_dt _ Hwf) Hup)
    as (a & b & c & d & Ha & Hb & Hc & Hd & HM & Hpost).
  injection Hpost as -> ->. simpl. unfold cell.
  rewrite list_lookup_insert_ne by done.
  by apply scatter_cell_untouched.
Qed.

Lemma two_neurons_kicked_gen (Dmax k : Z) (net : IzNetwork) :
  two_neurons Dmax k = Ok net -> (0 <= Dmax)%Z ->
  wf (with_I (kick 0) net)
  /\ update (with_I (kick 0) net)
     = (Ok (update_post (with_I (kick 0) net) [0; 0] [0; 0]
              [qc (-65) 1; qc (-65) 1] [0; 0]
              [[0; qc 5 1]; [0; 0]] [[1; k]; [1; 1]]%Z).1,
        (update_post (with_I (kick 0) net) [0; 0] [0; 0]
           [qc (-65) 1; qc (-65) 1] [0; 0]
           [[0; qc 5 1]; [0; 0]] [[1; k]; [1; 1]]%Z).2).
Proof.
  intros H HD.
  destruct (configure_ready 2 Dmax _ _ _ _ _ _ _ H HD)
    as (E & [= <-] & [Hwf [] HM HN Hpos] & _).
  split; [by apply wf_with_I |].
  apply update_eq; [by split | simpl; congruence |].
  apply lastFired_nonempty; [by apply wf_with_I |].
  simpl. rewrite HN. discriminate.
Qed.

Lemma fired_idx_lt (self : IzNetwork) a b c d W D (i : nat) :
  wf self -> i ∈ (update_post self a b c d W D).1 ->
  (i < _N self)%nat
  /\ (substates self a b c d (substeps (_dt self))).1.1 !! i = Some true.
Proof.
  intros Hwf Hi. unfold update_post in Hi. cbn [fst] in Hi.
  apply elem_of_np_where in Hi. split; [| done].
  apply lookup_lt_Some in Hi.
  by rewrite (proj1 (substates_lengths _ _ _ _ _ _ Hwf)) in Hi.
Qed.

Lemma scatter_non_interference_witness :
  exists net fired_idx self',
    two_neurons 2 2 = Ok net
    /\ update (with_I (kick 0) net) = (Ok fired_idx, self')
    /\ cell (_X self') 1 1 = cell (_X (with_I (kick 0) net)) 1 1.
Proof.
  eexists _, _, _. split; [reflexivity |].
  destruct (two_neurons_kicked_gen 2 2 _ eq_refl ltac:(lia)) as [Hwf Hup].
  split; [exact Hup |].
  apply (scatter_non_interference _ _ _ 1 1 Hwf Hup);
    [vm_compute; lia | unfold int64; simpl; lia | |].
  - intros i Hi.
    destruct (fired_idx_lt _ _ _ _ _ _ _ i Hwf Hi) as [Hlt Hf].
    change (i < 2)%nat in Hlt.
    destruct i as [| [| i]];
      [unfold int64, delay_of; simpl; lia .. | lia].
  - intros i Hi.
    destruct (fired_idx_lt _ _ _ _ _ _ _ i Hwf Hi) as [Hlt Hf].
    change (i < 2)%nat in Hlt.
    destruct i as [| [| i]]; [vm_compute; lia | | lia].
    vm_compute in Hf. discriminate Hf.
Defined.

Lemma setter_keeps_state (m : @method IzNetwork unit) (s : IzNetwork)
    (r : result unit) (s' : IzNetwork) :
  setter m -> m s = (r, s') -> v s' = v s /\ u s' = u s.
Proof.
  destruct 1 as [D | W | I | a b c d].
  - unfold setDelays. run_method.
    destruct (negb _); [by intros [= _ <-] |].
    destruct D as [A | A | A]; simpl; [| by intros [= _ <-] ..].
    destruct (any_below_half _); by intros [= _ <-].
  - unfold setWeights. run_method. destruct (negb _); by intros [= _ <-].
  - unfold setCurrent. run_method.
    destruct (Nat.eqb_spec (length I) (_N s)); by intros [= _ <-].
  - unfold setParameters. run_method. destruct (negb _); by intros [= _ <-].
Qed.

(** X10: before any call of [update], whatever setters were called on it
    ([setCurrent] among them, and calls that raised), a constructed object
    shows [v = -65] and [u = -1] for every neuron. *)
Theorem fresh_resting_state (N Dmax : Z) (self : IzNetwork) :
  fresh N Dmax self ->
  getState self
  = (Ok (replicate (Z.to_nat N) (qc (-65) 1),
         replicate (Z.to_nat N) (qc (-1) 1)), self).
Proof.
  intros H. unfold getState, gets.
  assert (v self = replicate (Z.to_nat N) (qc (-65) 1)
          /\ u self = replicate (Z.to_nat N) (qc (-1) 1)) as [-> ->]; [| done].
  induction H as [s H | s m r s' _ [IHv IHu] Hm Hcall].
  - unfold __init__ in H. destruct (_ || _); [done |].
    by injection H as <-.
  - destruct (setter_keeps_state m s r s' Hm Hcall) as [-> ->]. done.
Qed.

Lemma prepared_fresh : fresh 2 1 prepared.
Proof.
  assert (fresh 2 1 blank2) as H0 by (apply fresh_init; reflexivity).
  eapply fresh_call; [| apply (setter_setCurrent [qc 1000 1; 0]) |
                      apply surjective_pairing].
  eapply fresh_call; [| apply (setter_setWeights (NdArray [1; 1]%nat [[0]])) |
                      apply surjective_pairing].
  eapply fresh_call; [exact H0 | apply setter_setParameters |
                      apply surjective_pairing].
Qed.

Lemma fresh_resting_state_witness :
  getState prepared
  = (Ok (replicate (Z.to_nat 2) (qc (-65) 1),
         replicate (Z.to_nat 2) (qc (-1) 1)), prepared).
Proof. exact (fresh_resting_state 2 1 _ prepared_fresh). Defined.

(** ** A strong external current *)

Ltac qc_to_q :=
  repeat (progress (unfold Qclt, Qcle, Qcplus, Qcminus, Qcmult, Qcopp, qc,
                      Q2Qc in *; cbn [this] in *));
  rewrite ?Qred_correct in *.

Lemma imap_total_Qc (f : nat -> Qc -> Qc) (l : list Qc) (n : nat) :
  (n < length l)%nat -> imap f l !!! n = f n (l !!! n).
Proof. apply list_lookup_total_imap. Qed.

Lemma zip_with_total_Qc (f : Qc -> Qc -> Qc) (l k : list Qc) (n : nat) :
  (n < length l)%nat -> (n < length k)%nat ->
  zip_with f l k !!! n = f (l !!! n) (k !!! n).
Proof. apply lookup_total_zip_with. Qed.

Lemma first_substep_crosses (x : Qc) :
  qc 965 1 < x ->
  qc 30 1 < qc (-65) 1
            + qc 1 10 * (qc 4 100 * qc (-65) 1 * qc (-65) 1
                         + qc 5 1 * qc (-65) 1 + qc 140 1 - qc (-1) 1
                         + (x + 0)).
Proof. intros H. qc_to_q. lra. Qed.

(** X11: on a freshly configured network, a neuron whose external current
    at the first step exceeds 965 fires in that step, whatever its
    parameters, and shows the potential 30 afterwards. *)
Theorem strong_drive_fires (N Dmax : Z) a b c d (W : ndarray Qc)
    (D : array_arg) (net : IzNetwork) (I : list Qc) (n : nat) :
  configure N Dmax a b c d W D = Ok net -> (0 <= Dmax)%Z ->
  length I = Z.to_nat N -> (n < Z.to_nat N)%nat ->
  qc 965 1 < I !!! n ->
  exists fired_idx self',
    step I net = (Ok fired_idx, self')
    /\ n ∈ fired_idx /\ v self' !! n = Some (qc 30 1).
Proof.
  intros Hcfg HD HI Hn Hbig.
  destruct (configure_ready _ _ _ _ _ _ _ _ _ Hcfg HD)
    as (E & HE & Hr & Hcur & HX).
  pose proof (configure_inv _ _ _ _ _ _ _ _ _ Hcfg)
    as (E' & HE' & HN0 & HD0 & Hnet).
  eexists _, _. split; [eapply step_eq; [done | lia | done] |].
  set (self := with_I I net).
  assert (wf self) as Hwf by (apply wf_with_I, Hr).
  assert (_N self = Z.to_nat N) as HN by apply Hr.
  assert ((substates self a b c d (substeps (_dt self))).1.1 !! n = Some true)
    as Hf.
  { apply substates_fired_iff; [done |]. exists 1%nat. split.
    - rewrite (wf_dt _ Hwf), substeps_dt. lia.
    - apply Qcgtb_spec. rewrite substates_S. unfold substep. simpl.
      unfold euler_v. rewrite imap_total_Qc; cycle 1.
      { unfold reset_v, mask_assign. rewrite length_imap, (wf_v _ Hwf). lia. }
      pose proof HN as HN'. change (_N net = Z.to_nat N) in HN'.
      pose proof (wf_dt _ Hwf) as Hdt. change (_dt net = qc 1 10) in Hdt.
      rewrite HN', lookup_total_replicate_2 by lia.
      assert (reset_v self c !!! n = qc (-65) 1) as ->.
      { unfold reset_v, mask_assign.
        rewrite imap_total_Qc by (rewrite (wf_v _ Hwf); lia).
        subst net. simpl.
        by rewrite !lookup_total_replicate_2 by lia. }
      assert (reset_u self d !!! n = qc (-1) 1) as ->.
      { unfold reset_u, mask_iadd.
        rewrite imap_total_Qc by (rewrite (wf_u _ Hwf); lia).
        subst net. simpl.
        by rewrite !lookup_total_replicate_2 by lia. }
      assert (input_current self !!! n = I !!! n + 0) as ->.
      { unfold input_current, synaptic_input, self.
        cbn [_I _X _cursor _Dmax with_I].
        rewrite HX, Hcur, (rdy_M _ _ _ _ _ _ _ _ _ Hr). unfold zeros2.
        rewrite lookup_total_replicate_2
          by (apply Nat.mod_upper_bound; lia).
        rewrite zip_with_total_Qc
          by (unfold zeros; rewrite ?length_replicate; lia).
        unfold zeros. by rewrite lookup_total_replicate_2. }
      rewrite Hdt. by apply first_substep_crosses. }
  split.
  - by apply elem_of_np_where.
  - unfold update_post. cbn [snd v]. fold self.
    unfold mask_fill. rewrite list_lookup_imap.
    rewrite (list_lookup_total_correct _ _ _ Hf).
    destruct (substates_lengths self a b c d (substeps (_dt self)) Hwf)
      as (_ & Hlv & _).
    destruct (lookup_lt_is_Some_2
                (substates self a b c d (substeps (_dt self))).1.2 n)
      as [y Hy]; [lia |].
    by rewrite Hy.
Qed.

Lemma strong_drive_fires_witness :
  exists net fired_idx self',
    two_neurons 1 1 = Ok net
    /\ step (kick 0) net = (Ok fired_idx, self')
    /\ 0%nat ∈ fired_idx /\ v self' !! 0%nat = Some (qc 30 1).
Proof.
  assert (exists net, two_neurons 1 1 = Ok net) as [net Hnet]
    by (eexists; reflexivity).
  destruct (strong_drive_fires 2 1 [0; 0] [0; 0] [qc (-65) 1; qc (-65) 1]
              [0; 0] (NdArray [2; 2]%nat [[0; qc 5 1]; [0; 0]])
              (IntArray (NdArray [2; 2]%nat [[1; 1]; [1; 1]]%Z))
              net (kick 0) 0%nat Hnet) as (f & s' & H1 & H2 & H3);
    [lia | reflexivity | simpl; lia | vm_compute; reflexivity |].
  exists net, f, s'. exact (conj Hnet (conj H1 (conj H2 H3))).
Defined.

(** ** The total synaptic input of any network *)

Lemma Qcsum_list_ext (f g : nat -> Qc) (l : list nat) :
  (forall i, i ∈ l -> f i = g i) -> Qcsum_list f l = Qcsum_list g l.
Proof.
  induction l as [| i l IH]; intros H; cbn [Qcsum_list foldr]; [done |].
  rewrite (H i) by apply list_elem_of_here. f_equal.
  apply IH. intros i' Hi'. apply H. by apply list_elem_of_further.
Qed.

Lemma Qcsum_list_plus (f g : nat -> Qc) (l : list nat) :
  Qcsum_list f l + Qcsum_list g l = Qcsum_list (fun i => f i + g i) l.
Proof.
  induction l as [| i l IH]; cbn [Qcsum_list foldr].
  - apply Qcplus_0_l.
  - fold (Qcsum_list f l) (Qcsum_list g l)
         (Qcsum_list (fun i => f i + g i) l).
    rewrite <- IH. ring.
Qed.

Lemma Qcsum_list_zero (f : nat -> Qc) (l : list nat) :
  (forall i, i ∈ l -> f i = 0) -> Qcsum_list f l = 0.
Proof.
  induction l as [| i l IH]; intros H; cbn [Qcsum_list foldr]; [done |].
  fold (Qcsum_list f l).
  rewrite (H i) by apply list_elem_of_here.
  rewrite IH; [apply Qcplus_0_l |].
  intros i' Hi'. apply H. by apply list_elem_of_further.
Qed.

(** The scatter loop adds to a cell the weights of the firing neurons whose
    delay lands on its slot. *)
Lemma scatter_cell_sum (M cur : nat) D W (l : list nat) :
  forall (X : list (list Qc)) (r j : nat),
    cell (scatter M cur D W l X) r j
    = (fun x => x + Qcsum_list
                      (fun i => if bool_decide
                                     (slot_of M cur (delay_of D i j) = r)
                                then (W !!! i) !!! j else 0) l)
        <$> cell X r j.
Proof.
  unfold scatter. induction l as [| i l IH]; intros X r j;
    cbn [foldl Qcsum_list foldr].
  - destruct (cell X r j) as [x |]; cbn [fmap option_fmap option_map];
      [| done].
    by rewrite Qcplus_0_r.
  - rewrite IH, scatter_row_cell. fold (delay_of D i j).
    destruct (cell X r j) as [x |]; cbn [fmap option_fmap option_map];
      [| done].
    f_equal. unfold Qcsum_list. case_bool_decide; ring.
Qed.

Lemma Qcsum_where_from (g : nat -> Qc) (mask : list bool) :
  forall n,
    Qcsum_list g (where_from n mask)
    = Qcsum_list (fun i => if (mask !!! (i - n)%nat : bool) then g i else 0)
        (seq n (length mask)).
Proof.
  induction mask as [| b mask IH]; intros n; [done |].
  cbn [where_from length seq]. cbn [Qcsum_list foldr].
  rewrite Nat.sub_diag.
  assert (Qcsum_list g (where_from (S n) mask)
          = foldr (fun i acc =>
                     (if ((b :: mask) !!! (i - n)%nat : bool)
                      then g i else 0) + acc) 0 (seq (S n) (length mask)))
    as E.
  { rewrite IH. apply Qcsum_list_ext. intros i Hi%elem_of_seq.
    replace (i - n)%nat with (S (i - S n)) by lia. done. }
  rewrite <- E. destruct b; cbn [app Qcsum_list foldr].
  - done.
  - fold (Qcsum_list g (where_from (S n) mask)).
    change ((false :: mask) !!! 0%nat) with false. cbn iota.
    by rewrite Qcplus_0_l.
Qed.

Lemma bool_decide_np_where (mask : list bool) (i : nat) :
  (i < length mask)%nat -> bool_decide (i ∈ np_where mask) = mask !!! i.
Proof.
  intros [b Hb]%lookup_lt_is_Some_2.
  rewrite (list_lookup_total_correct _ _ _ Hb). destruct b.
  - apply bool_decide_eq_true_2. by apply elem_of_np_where.
  - apply bool_decide_eq_false_2. rewrite elem_of_np_where. congruence.
Qed.

(** What one source contributes to the slot [q] steps ahead of the cursor,
    from one step to the next. *)
Lemma scheduled_step (f : nat -> bool) (M t q : nat) (k : Z) (w : Qc) :
  M <> 0%nat -> (S q < M)%nat ->
  (if scheduled f (landing M k) t (S q) then w else 0)
  + (if f t
     then (if bool_decide (slot_of M t k = ((t + S q) mod M)%nat)
           then w else 0)
     else 0)
  = if scheduled f (landing M k) (S t) q then w else 0.
Proof.
  intros HM Hq. pose proof (landing_lt M k HM) as Hr.
  rewrite (slot_of_landing M t k HM). set (r := landing M k) in *.
  unfold scheduled. replace (S t + q)%nat with (t + S q)%nat by lia.
  destruct (decide (r = S q)) as [-> | Hne].
  - rewrite (bool_decide_eq_false_2 (S q < S q /\ _)%nat) by lia.
    rewrite (bool_decide_eq_true_2 (q < S q /\ _)%nat) by lia.
    rewrite (bool_decide_eq_true_2 (_ = _)) by done.
    replace (t + S q - S q)%nat with t by lia.
    rewrite andb_false_l, andb_true_l. apply Qcplus_0_l.
  - rewrite (bool_decide_eq_false_2 (_ = _)).
    + rewrite (bool_decide_ext (S q < r /\ r <= t + S q)%nat
                 (q < r /\ r <= t + S q)%nat) by lia.
      destruct (f t); apply Qcplus_0_r.
    + intros E. apply mod_add_inj in E; [done | done | lia].
Qed.

(** What the buffer of any network holds before step [t]: in the slot [q]
    steps ahead of the cursor, for neuron [j], the sum of the weights
    [W[i,j]] of the sources [i] that fired at the step whose contribution
    lands there. *)
Lemma buffer_invariant_gen (net : IzNetwork) a b c d W D M N inputs :
  ready net a b c d W D M N -> N <> 0%nat -> _cursor net = 0%nat ->
  _X net = zeros2 M N -> (forall t, length (inputs t) = N) ->
  forall t, exists s,
    state_at net inputs t = Ok s
    /\ ready s a b c d W D M N
    /\ _cursor s = t
    /\ forall q j, (q < M)%nat -> (j < N)%nat ->
         cell (_X s) ((t + q) mod M)%nat j
         = Some (Qcsum
                   (fun i =>
                      if scheduled (fun t' => fires net inputs t' i)
                           (landing M (delay_of D i j)) t q
                      then (W !!! i) !!! j else 0) N).
Proof.
  intros Hr HN0 Hc HX HI.
  assert (M <> 0%nat) as HM by apply Hr.
  induction t as [| t (s & Hs & Hrs & Hcs & IH)].
  - exists net. split_and!; [done | done | done |].
    intros q j Hq Hj. rewrite HX, zeros2_cell;
      [| by apply Nat.mod_upper_bound | done].
    f_equal. symmetry. apply Qcsum_list_zero. intros i _.
    pose proof (landing_lt M (delay_of D i j) HM).
    unfold scheduled.
    by rewrite (bool_decide_eq_false_2 (q < _ /\ _ <= 0 + q)%nat) by lia.
  - pose proof (HI t) as HIt.
    exists (update_post (with_I (inputs t) s) a b c d W D).2.
    split; [by eapply state_at_S |].
    split; [by apply ready_step |].
    split; [simpl; lia |].
    intros q j Hq Hj.
    pose proof (fun i => fires_eq net a b c d W D M N inputs t s i Hs Hrs
                             HN0 HIt) as Hf.
    assert (wf (with_I (inputs t) s)) as Hwf' by (apply wf_with_I, Hrs).
    destruct (substates_lengths (with_I (inputs t) s) a b c d
                (substeps (_dt (with_I (inputs t) s))) Hwf') as (Hlf & _ & _).
    destruct Hrs as [Hwf Hcfg HMs HNs _].
    destruct (scatter_shape M t D W
                (update_post (with_I (inputs t) s) a b c d W D).1 N (_X s))
      as [Hlen _].
    { rewrite <- HNs. apply Hwf. }
    unfold update_post in Hf, Hlen |- *. cbn [fst snd _X] in Hf, Hlen |- *.
    cbn [_cursor _Dmax _N with_I _X _dt] in Hf, Hlen, Hlf |- *.
    rewrite HMs, HNs, Hcs. rewrite HNs in Hlf.
    unfold cell. rewrite list_lookup_insert.
    destruct (decide (q = M - 1)%nat) as [-> | Hq'].
    + replace (S t + (M - 1))%nat with (t + 1 * M)%nat by lia.
      rewrite Nat.Div0.mod_add.
      rewrite decide_True; cbn [mbind option_bind].
      * unfold zeros. rewrite lookup_replicate_2 by done.
        f_equal. symmetry. apply Qcsum_list_zero. intros i _.
        pose proof (landing_lt M (delay_of D i j) HM).
        unfold scheduled.
        by rewrite (bool_decide_eq_false_2 (M - 1 < _ /\ _)%nat) by lia.
      * split; [done |]. rewrite Hlen, (wf_X_rows _ Hwf), HMs.
        by apply Nat.mod_upper_bound.
    + replace (S t + q)%nat with (t + S q)%nat by lia.
      rewrite decide_False; cycle 1.
      { intros [E _]. apply (mod_add_lt M t (S q)); [lia |]. by rewrite E. }
      match goal with
      | |- ?X !! ?r ≫= _ = _ => change (cell X r j = Some
             (Qcsum (fun i =>
                if scheduled (fun t' => fires net inputs t' i)
                     (landing M (delay_of D i j)) (S t) q
                then (W !!! i) !!! j else 0) N))
      end.
      rewrite scatter_cell_sum, IH by (done || lia).
      cbn [fmap option_fmap option_map]. f_equal.
      unfold np_where. rewrite Qcsum_where_from, Hlf.
      unfold Qcsum. rewrite Qcsum_list_plus.
      apply Qcsum_list_ext. intros i Hi%elem_of_seq. cbn beta.
      rewrite Nat.sub_0_r.
      rewrite <- (bool_decide_np_where _ i) by lia.
      fold (np_where
              (substates (with_I (inputs t) s) a b c d (substeps (_dt s))).1.1).
      rewrite <- (Hf i).
      apply (scheduled_step (fun t' => fires net inputs t' i) M t q
               (delay_of D i j) ((W !!! i) !!! j) HM). lia.
Qed.

Lemma input_at_sum (net : IzNetwork) a b c d W D M N inputs (t j : nat) :
  ready net a b c d W D M N -> _cursor net = 0%nat ->
  _X net = zeros2 M N -> (forall t, length (inputs t) = N) -> (j < N)%nat ->
  exists I, input_at net inputs t = Ok I
    /\ I !! j
       = Some (inputs t !!! j
               + Qcsum (fun i =>
                          if scheduled (fun t' => fires net inputs t' i)
                               (landing M (delay_of D i j)) t 0
                          then (W !!! i) !!! j else 0) N).
Proof.
  intros Hr Hc HX HI Hj.
  destruct (buffer_invariant_gen _ _ _ _ _ _ _ _ _ _ Hr ltac:(lia) Hc HX HI t)
    as (s & Hs & Hrs & Hcs & Hcell).
  assert (M <> 0%nat) as HM by apply Hr.
  specialize (Hcell 0%nat j ltac:(lia) Hj).
  rewrite Nat.add_0_r in Hcell. unfold cell in Hcell.
  destruct (_X s !! (t mod M)%nat) as [row |] eqn:Hrow; [| done].
  cbn [mbind option_bind] in Hcell.
  unfold input_at. rewrite Hs. cbn [mbind result_bind].
  rewrite setCurrent_eq by (rewrite (rdy_N _ _ _ _ _ _ _ _ _ Hrs); apply HI).
  eexists. split; [reflexivity |].
  unfold input_current, synaptic_input. cbn [_I _X _cursor _Dmax with_I].
  rewrite Hcs, (rdy_M _ _ _ _ _ _ _ _ _ Hrs).
  rewrite (list_lookup_total_correct _ _ _ Hrow).
  rewrite lookup_zip_with, Hcell.
  rewrite (list_lookup_lookup_total_lt (inputs t) j) by (rewrite HI; done).
  done.
Qed.

(** X12: in any configured network whose delays all lie between 1 and
    [Dmax], the input current of neuron [j] at step [s] is its external
    current plus the sum, over all source neurons [i], of [W[i,j]] for the
    sources that fired exactly [D[i,j]] steps earlier: every spike is
    delivered once, at its own delay, and deliveries to one neuron add up. *)
Theorem delayed_input_sum (N Dmax : Z) a b c d (W : ndarray Qc)
    (D : ndarray Z) (net : IzNetwork) (inputs : nat -> list Qc) (j s : nat) :
  configure N Dmax a b c d W (IntArray D) = Ok net ->
  (forall i, (i < Z.to_nat N)%nat ->
     (1 <= delay_of (rows D) i j <= Dmax)%Z) ->
  (j < Z.to_nat N)%nat ->
  (forall t, length (inputs t) = Z.to_nat N) ->
  exists I, input_at net inputs s = Ok I
    /\ I !! j
       = Some (inputs s !!! j
               + Qcsum (fun i =>
                          if bool_decide
                               (Z.to_nat (delay_of (rows D) i j) <= s)%nat
                             && fires net inputs
                                  (s - Z.to_nat (delay_of (rows D) i j)) i
                          then (rows W !!! i) !!! j else 0) (Z.to_nat N)).
Proof.
  intros Hcfg Hrange Hj HI.
  assert (0 <= Dmax)%Z as HD.
  { specialize (Hrange j Hj). lia. }
  destruct (configure_ready _ _ _ _ _ _ _ _ _ Hcfg HD)
    as (E & [= <-] & Hr & Hc & HX).
  destruct (input_at_sum _ _ _ _ _ _ _ _ _ inputs s j Hr Hc HX HI Hj)
    as (I & HIa & HIj).
  exists I. split; [done |]. rewrite HIj. do 2 f_equal.
  apply Qcsum_list_ext. intros i Hi%elem_of_seq.
  specialize (Hrange i ltac:(lia)).
  rewrite landing_small by lia. unfold scheduled.
  rewrite Nat.add_0_r.
  by rewrite (bool_decide_ext (0 < Z.to_nat (delay_of (rows D) i j)
                               /\ Z.to_nat (delay_of (rows D) i j) <= s)%nat
                (Z.to_nat (delay_of (rows D) i j) <= s)%nat) by lia.
Qed.

Lemma delayed_input_sum_witness :
  exists net, two_neurons 1 1 = Ok net /\
  exists I, input_at net kick 1 = Ok I
    /\ I !! 1%nat
       = Some (kick 1 !!! 1%nat
               + Qcsum (fun i =>
                          if bool_decide
                               (Z.to_nat (delay_of [[1; 1]; [1; 1]]%Z i 1)
                                <= 1)%nat
                             && fires net kick
                                  (1 - Z.to_nat
                                         (delay_of [[1; 1]; [1; 1]]%Z i 1)) i
                          then ([[0; qc 5 1]; [0; 0]] !!! i) !!! 1%nat
                          else 0) (Z.to_nat 2)).
Proof.
  eexists. split; [reflexivity |].
  apply (delayed_input_sum 2 1 [0; 0] [0; 0] [qc (-65) 1; qc (-65) 1] [0; 0]
           (NdArray [2; 2]%nat [[0; qc 5 1]; [0; 0]])
           (NdArray [2; 2]%nat [[1; 1]; [1; 1]]%Z) _ kick 1 1).
  - reflexivity.
  - intros [| [| i]] Hi; vm_compute; (split; discriminate) || (simpl in Hi; lia).
  - simpl; lia.
  - intros [| t]; reflexivity.
Defined.
(** * The class [ModularNetwork] *)

(** A [for] loop whose body returns keeps an invariant of the elements
    already visited. *)
Lemma forM_rule {St B} (Inv : list B -> St -> Prop) (l : list B)
    (body : B -> unit -> @method St unit) :
  (forall pre x s, Inv pre s -> x ∈ l ->
     exists s', body x tt s = (Ok tt, s') /\ Inv (pre ++ [x]) s') ->
  forall pre s, Inv pre s ->
  exists s', forM l body tt s = (Ok tt, s') /\ Inv (pre ++ l) s'.
Proof.
  induction l as [|x l IH]; intros Hbody pre s HI.
  - exists s. rewrite app_nil_r. done.
  - destruct (Hbody pre x s HI) as (s1 & E1 & H1); [by left|].
    destruct (IH (fun pre x s H Hx => Hbody pre x s H (ltac:(by right)))
                (pre ++ [x]) s1 H1) as (s2 & E2 & H2).
    exists s2. split.
    + simpl. unfold mbind_method. rewrite E1. exact E2.
    + rewrite <- app_assoc in H2. exact H2.
Qed.

Lemma set_entry_spec {A} (m : list (list A)) (r c i j : nat) (x : A) :
  shaped m r c -> (i < r)%nat -> (j < c)%nat ->
  exists m', set_entry i j x m = Ok m' /\ shaped m' r c
    /\ forall a b, entry m' a b
                   = if decide (a = i /\ b = j) then Some x else entry m a b.
Proof.
  intros [Hr Hc] Hi Hj.
  destruct (lookup_lt_is_Some_2 m i) as [row Hrow]; [lia|].
  pose proof (Hc _ _ Hrow) as Hlen.
  exists (<[i := <[j := x]> row]> m). unfold set_entry. rewrite Hrow.
  destruct (decide (j < length row)%nat); [|lia].
  split; [done|]. split.
  - split; [by rewrite length_insert|].
    intros a row' Ha.
    apply list_lookup_insert_Some in Ha as [(-> & <- & _)|[_ Ha]].
    + by rewrite length_insert.
    + eauto.
  - intros a b. unfold entry.
    destruct (decide (a = i /\ b = j)) as [[-> ->]|Hne].
    + rewrite list_lookup_insert_eq by lia. simpl.
      by rewrite list_lookup_insert_eq by lia.
    + destruct (decide (a = i)) as [->|Ha].
      * rewrite list_lookup_insert_eq by lia. rewrite Hrow. simpl.
        apply list_lookup_insert_ne. intros ->. tauto.
      * by rewrite list_lookup_insert_ne by done.
Qed.

(** One row of [gen_coef]. *)
Lemma gen_coef_row_spec {A} (P : A -> Prop) (draw : nat -> result A)
    (r c i : nat) (to : list nat) (m : list (list A)) (k : nat) :
  (forall k, exists x, draw k = Ok x /\ P x) ->
  shaped m r c -> (i < r)%nat -> (forall j, j ∈ to -> (j < c)%nat) ->
  exists m',
    forM to (fun j _ => gen_coef_entry draw i j) tt (m, k)
    = (Ok tt, (m', (k + length to)%nat))
    /\ shaped m' r c
    /\ (forall b, b ∈ to -> exists x, entry m' i b = Some x /\ P x)
    /\ (forall a b, ~ (a = i /\ b ∈ to) -> entry m' a b = entry m a b).
Proof.
  intros Hdraw Hm Hi Hto.
  destruct (forM_rule
    (fun pre st => st.2 = (k + length pre)%nat /\ shaped st.1 r c
       /\ (forall b, b ∈ pre -> exists x, entry st.1 i b = Some x /\ P x)
       /\ (forall a b, ~ (a = i /\ b ∈ pre) -> entry st.1 a b = entry m a b))
    to (fun j _ => gen_coef_entry draw i j)) with (pre := @nil nat)
    (s := (m, k)) as (s' & E & H).
  - intros pre j [m1 k1] (Hk & Hs & Hin & Hout) Hj; simpl in *.
    destruct (Hdraw k1) as (x & Hx & HP).
    destruct (set_entry_spec m1 r c i j x Hs Hi (Hto _ Hj))
      as (m2 & E2 & Hs2 & He2).
    exists (m2, S k1). unfold gen_coef_entry; simpl. rewrite Hx, E2.
    split; [done|]. simpl. split; [|split; [|split]].
    + rewrite length_app. simpl. lia.
    + exact Hs2.
    + intros b Hb. rewrite He2.
      destruct (decide (i = i /\ b = j)) as [|Hn]; [eauto|].
      apply Hin. apply elem_of_app in Hb as [Hb|Hb]; [done|].
      apply list_elem_of_singleton in Hb. subst. tauto.
    + intros a b Hab. rewrite He2.
      destruct (decide (a = i /\ b = j)) as [[-> ->]|Hn].
      { exfalso. apply Hab. split; [done|]. apply elem_of_app. right.
        by apply list_elem_of_singleton. }
      apply Hout. intros [-> Hb]. apply Hab. split; [done|].
      apply elem_of_app; by left.
  - simpl. split; [lia|]. split; [done|].
    split; [intros b Hb; by apply elem_of_nil in Hb|done].
  - destruct s' as [m' k']. simpl in H. destruct H as (-> & Hs & Hin & Hout).
    exists m'. eauto.
Qed.

(** [gen_coef] over a block of the matrix. *)
Lemma gen_coef_spec {A} (P : A -> Prop) (draw : nat -> result A)
    (r c : nat) (fr to : list nat) (m : list (list A)) (k : nat) :
  (forall k, exists x, draw k = Ok x /\ P x) ->
  shaped m r c ->
  (forall i, i ∈ fr -> (i < r)%nat) -> (forall j, j ∈ to -> (j < c)%nat) ->
  exists m',
    gen_coef draw fr to (m, k)
    = (Ok tt, (m', (k + length fr * length to)%nat))
    /\ shaped m' r c
    /\ (forall a b, a ∈ fr -> b ∈ to ->
          exists x, entry m' a b = Some x /\ P x)
    /\ (forall a b, ~ (a ∈ fr /\ b ∈ to) -> entry m' a b = entry m a b).
Proof.
  intros Hdraw Hm Hfr Hto. unfold gen_coef.
  destruct (forM_rule
    (fun pre st => st.2 = (k + length pre * length to)%nat
       /\ shaped st.1 r c
       /\ (forall a b, a ∈ pre -> b ∈ to ->
             exists x, entry st.1 a b = Some x /\ P x)
       /\ (forall a b, ~ (a ∈ pre /\ b ∈ to) -> entry st.1 a b = entry m a b))
    fr (fun i _ => forM to (fun j _ => gen_coef_entry draw i j) tt))
    with (pre := @nil nat) (s := (m, k)) as (s' & E & H).
  - intros pre i [m1 k1] (Hk & Hs & Hin & Hout) Hi; simpl in *.
    destruct (gen_coef_row_spec P draw r c i to m1 k1 Hdraw Hs (Hfr _ Hi) Hto)
      as (m2 & E2 & Hs2 & Hin2 & Hout2).
    exists (m2, (k1 + length to)%nat). split; [exact E2|].
    simpl. split; [|split; [|split]].
    + rewrite length_app. simpl. lia.
    + exact Hs2.
    + intros a b Ha Hb. destruct (decide (a = i)) as [->|Hne]; [eauto|].
      rewrite Hout2 by tauto. apply Hin; [|done].
      apply elem_of_app in Ha as [Ha|Ha]; [done|].
      apply list_elem_of_singleton in Ha. done.
    + intros a b Hab. rewrite Hout2.
      * apply Hout. intros [Ha Hb]. apply Hab. split; [|done].
        apply elem_of_app; by left.
      * intros [-> Hb]. apply Hab. split; [|done].
        apply elem_of_app; right. by apply list_elem_of_singleton.
  - simpl. split; [lia|]. split; [done|].
    split; [intros a b Ha; by apply elem_of_nil in Ha|done].
  - destruct s' as [m' k']. simpl in H. destruct H as (-> & Hs & Hin & Hout).
    exists m'. eauto.
Qed.

(** What the two draws of [gen_coef] return. *)
Lemma randint_spec (g : Rng) (lo hi : Z) (k : nat) :
  rng_ok g -> (lo <= hi)%Z ->
  exists x, randint g lo hi k = Ok x /\ (lo <= x <= hi)%Z.
Proof.
  intros [_ Hb] Hle. unfold randint.
  destruct (Z.ltb_spec hi lo) as [|_]; [lia|].
  eexists; split; [reflexivity|].
  specialize (Hb k (hi - lo + 1)%Z). lia.
Qed.

Lemma uniform_spec (g : Rng) (lo hi : Qc) (k : nat) :
  rng_ok g ->
  exists x, uniform g lo hi k = Ok x /\ between lo hi x.
Proof.
  intros [Hu _]. unfold uniform. eexists; split; [reflexivity|].
  destruct (Hu k) as [H0 H1]. revert H0 H1.
  generalize (next_unit g k) as r. intros r H0 H1.
  split; intros Hle; qc_to_q; nra.
Qed.

Lemma steady_ok : rng_ok steady.
Proof.
  split; [intros k; split; vm_compute; (reflexivity || discriminate) | intros; simpl; lia].
Qed.

Lemma forM_skip {St B} (l : list B) (s : St) :
  forM l (fun _ _ => ret tt) tt s = (Ok tt, s).
Proof. induction l as [|x l IH]; [done|]. simpl. exact IH. Qed.

(** X13: with [need_int], [gen_coef] over index ranges of the matrix and an
    interval that is not empty returns after one call of [random.randint]
    per pair; every entry of the block [fr_range] x [to_range] is then an
    integer of [[min_val, max_val]], every other entry is as before, and the
    shape is kept. *)
Theorem gen_coef_randint_block (g : Rng) (target : list (list Z))
    (r c : nat) (fr_range to_range : list nat) (min_val max_val : Z)
    (k : nat) :
  rng_ok g -> shaped target r c ->
  (forall i, i ∈ fr_range -> (i < r)%nat) ->
  (forall j, j ∈ to_range -> (j < c)%nat) ->
  (min_val <= max_val)%Z ->
  exists target',
    gen_coef (randint g min_val max_val) fr_range to_range (target, k)
    = (Ok tt, (target', (k + length fr_range * length to_range)%nat))
    /\ shaped target' r c
    /\ (forall i j, i ∈ fr_range -> j ∈ to_range ->
          exists x, entry target' i j = Some x
                    /\ (min_val <= x <= max_val)%Z)
    /\ (forall i j, ~ (i ∈ fr_range /\ j ∈ to_range) ->
          entry target' i j = entry target i j).
Proof.
  intros Hg Hs Hfr Hto Hle.
  apply (gen_coef_spec (fun x => (min_val <= x <= max_val)%Z)); try done.
  intros k'. by apply randint_spec.
Qed.

Lemma gen_coef_randint_block_witness :
  exists target',
    gen_coef (randint steady 1 20) [1%nat] [0%nat; 1%nat]
      ([[0; 0]; [0; 0]]%Z, 0%nat)
    = (Ok tt, (target', (0 + length [1%nat] * length [0%nat; 1%nat])%nat))
    /\ shaped target' 2 2
    /\ (forall i j, i ∈ [1%nat] -> j ∈ [0%nat; 1%nat] ->
          exists x, entry target' i j = Some x /\ (1 <= x <= 20)%Z)
    /\ (forall i j, ~ (i ∈ [1%nat] /\ j ∈ [0%nat; 1%nat]) ->
          entry target' i j = entry [[0; 0]; [0; 0]]%Z i j).
Proof.
  apply (gen_coef_randint_block steady [[0; 0]; [0; 0]]%Z 2 2).
  - exact steady_ok.
  - split; [reflexivity|]. intros [|[|i]] row H; simpl in H; simplify_eq; reflexivity.
  - intros i Hi. apply list_elem_of_singleton in Hi. lia.
  - intros j Hj. apply elem_of_cons in Hj as [->|Hj]; [lia|].
    apply list_elem_of_singleton in Hj. lia.
  - lia.
Defined.

(** X14: without [need_int], [gen_coef] over index ranges of the matrix
    always returns, after one call of [random.uniform] per pair; every entry
    of the block is then a float between [min_val] and [max_val] (in either
    order), every other entry is as before, and the shape is kept. *)
Theorem gen_coef_uniform_block (g : Rng) (target : list (list Qc))
    (r c : nat) (fr_range to_range : list nat) (min_val max_val : Qc)
    (k : nat) :
  rng_ok g -> shaped target r c ->
  (forall i, i ∈ fr_range -> (i < r)%nat) ->
  (forall j, j ∈ to_range -> (j < c)%nat) ->
  exists target',
    gen_coef (uniform g min_val max_val) fr_range to_range (target, k)
    = (Ok tt, (target', (k + length fr_range * length to_range)%nat))
    /\ shaped target' r c
    /\ (forall i j, i ∈ fr_range -> j ∈ to_range ->
          exists x, entry target' i j = Some x
                    /\ between min_val max_val x)
    /\ (forall i j, ~ (i ∈ fr_range /\ j ∈ to_range) ->
          entry target' i j = entry target i j).
Proof.
  intros Hg Hs Hfr Hto.
  apply (gen_coef_spec (between min_val max_val)); try done.
  intros k'. by apply uniform_spec.
Qed.

Lemma gen_coef_uniform_block_witness :
  exists target',
    gen_coef (uniform steady (qc (-2) 1) 0) [1%nat] [0%nat; 1%nat]
      ([[0; 0]; [0; 0]], 0%nat)
    = (Ok tt, (target', (0 + length [1%nat] * length [0%nat; 1%nat])%nat))
    /\ shaped target' 2 2
    /\ (forall i j, i ∈ [1%nat] -> j ∈ [0%nat; 1%nat] ->
          exists x, entry target' i j = Some x
                    /\ between (qc (-2) 1) 0 x)
    /\ (forall i j, ~ (i ∈ [1%nat] /\ j ∈ [0%nat; 1%nat]) ->
          entry target' i j = entry [[0; 0]; [0; 0]] i j).
Proof.
  apply (gen_coef_uniform_block steady [[0; 0]; [0; 0]] 2 2).
  - exact steady_ok.
  - split; [reflexivity|]. intros [|[|i]] row H; simpl in H; simplify_eq; reflexivity.
  - intros i Hi. apply list_elem_of_singleton in Hi. lia.
  - intros j Hj. apply elem_of_cons in Hj as [->|Hj]; [lia|].
    apply list_elem_of_singleton in Hj. lia.
Defined.

(** X15: with [need_int] and ranges inside the matrix, [gen_coef] returns
    exactly when the interval is not empty ([min_val <= max_val]) or there
    is no pair to fill; otherwise the first call of [random.randint] raises
    and the matrix is as before. *)
Theorem gen_coef_empty_interval (g : Rng) (target : list (list Z))
    (r c : nat) (fr_range to_range : list nat) (min_val max_val : Z)
    (k : nat) :
  rng_ok g -> shaped target r c ->
  (forall i, i ∈ fr_range -> (i < r)%nat) ->
  (forall j, j ∈ to_range -> (j < c)%nat) ->
  (is_ok (gen_coef (randint g min_val max_val) fr_range to_range
            (target, k)).1 = true
   <-> (min_val <= max_val)%Z \/ fr_range = [] \/ to_range = [])
  /\ (is_ok (gen_coef (randint g min_val max_val) fr_range to_range
               (target, k)).1 = false ->
      gen_coef (randint g min_val max_val) fr_range to_range (target, k)
      = (Raise ValueError, (target, k))).
Proof.
  intros Hg Hs Hfr Hto.
  destruct (decide (min_val <= max_val)%Z) as [Hle|Hgt].
  { destruct (gen_coef_spec (fun x => (min_val <= x <= max_val)%Z)
                (randint g min_val max_val) r c fr_range to_range target k
                (fun k' => randint_spec g _ _ k' Hg Hle) Hs Hfr Hto)
      as (t' & -> & _).
    simpl. split; [tauto|discriminate]. }
  destruct fr_range as [|i fr].
  { simpl. split; [tauto|discriminate]. }

  destruct to_range as [|j to].
  { assert (gen_coef (randint g min_val max_val) (i :: fr) [] (target, k)
            = (Ok tt, (target, k))) as ->.
    { unfold gen_coef. cbn [forM]. unfold mbind_method, ret.
      apply (forM_skip fr). }
    simpl. split; [tauto|discriminate]. }
  assert (gen_coef (randint g min_val max_val) (i :: fr) (j :: to)
            (target, k) = (Raise ValueError, (target, k))) as ->.
  { unfold gen_coef. cbn [forM]. unfold mbind_method, gen_coef_entry, randint.
    cbn [fst snd]. destruct (Z.ltb_spec max_val min_val); [done|lia]. }
  simpl. split; [|done].
  split; [discriminate|]. intros [?|[?|?]]; [lia|done|done].
Qed.

Lemma gen_coef_empty_interval_witness :
  (is_ok (gen_coef (randint steady 20 1) [1%nat] [0%nat; 1%nat]
            ([[0; 0]; [0; 0]]%Z, 0%nat)).1 = true
   <-> (20 <= 1)%Z \/ [1%nat] = [] \/ [0%nat; 1%nat] = [])
  /\ (is_ok (gen_coef (randint steady 20 1) [1%nat] [0%nat; 1%nat]
               ([[0; 0]; [0; 0]]%Z, 0%nat)).1 = false ->
      gen_coef (randint steady 20 1) [1%nat] [0%nat; 1%nat]
        ([[0; 0]; [0; 0]]%Z, 0%nat)
      = (Raise ValueError, ([[0; 0]; [0; 0]]%Z, 0%nat))).
Proof.
  apply (gen_coef_empty_interval steady [[0; 0]; [0; 0]]%Z 2 2).
  - exact steady_ok.
  - split; [reflexivity|]. intros [|[|i]] row H; simpl in H; simplify_eq; reflexivity.
  - intros i Hi. apply list_elem_of_singleton in Hi. lia.
  - intros j Hj. apply elem_of_cons in Hj as [->|Hj]; [lia|].
    apply list_elem_of_singleton in Hj. lia.
Defined.

(** The loops that set connections. *)
Lemma connect_spec (self : ModularNetwork) (conn : list (list Qc))
    (k n i j : nat) :
  shaped conn n n -> (i < n)%nat -> (j < n)%nat ->
  exists conn',
    connect i j (with_connection conn self, k)
    = (Ok tt, (with_connection conn' self, k))
    /\ shaped conn' n n
    /\ forall a b, entry conn' a b
                   = if decide (a = i /\ b = j) then Some 1 else entry conn a b.
Proof.
  intros Hs Hi Hj.
  destruct (set_entry_spec conn n n i j 1 Hs Hi Hj) as (m' & E & Hs' & He).
  exists m'. unfold connect. simpl. rewrite E. done.
Qed.

Lemma connect_row_spec (cond : nat -> bool)
    (body : nat -> @method (ModularNetwork * nat) unit) (i : nat)
    (to : list nat) (self : ModularNetwork) (conn : list (list Qc))
    (k n : nat) :
  (forall j st, body j st = if cond j then connect i j st else (Ok tt, st)) ->
  shaped conn n n -> (i < n)%nat -> (forall j, j ∈ to -> (j < n)%nat) ->
  exists conn',
    forM to (fun j _ => body j) tt (with_connection conn self, k)
    = (Ok tt, (with_connection conn' self, k))
    /\ shaped conn' n n
    /\ (forall b, b ∈ to -> cond b = true -> entry conn' i b = Some 1)
    /\ (forall a b, ~ (a = i /\ b ∈ to /\ cond b = true) ->
          entry conn' a b = entry conn a b).
Proof.
  intros Hbody Hs Hi Hto.
  destruct (forM_rule
    (fun pre st => exists c1, st = (with_connection c1 self, k)
       /\ shaped c1 n n
       /\ (forall b, b ∈ pre -> cond b = true -> entry c1 i b = Some 1)
       /\ (forall a b, ~ (a = i /\ b ∈ pre /\ cond b = true) ->
             entry c1 a b = entry conn a b))
    to (fun j _ => body j)) with (pre := @nil nat)
    (s := (with_connection conn self, k)) as (s' & E & H).
  - intros pre j st (c1 & -> & Hs1 & Hin & Hout) Hj.
    rewrite Hbody. destruct (cond j) eqn:Hc.
    + destruct (connect_spec self c1 k n i j Hs1 Hi (Hto _ Hj))
        as (c2 & E2 & Hs2 & He2).
      eexists; split; [exact E2|]. exists c2. split; [done|].
      split; [done|]. split.
      * intros b Hb Hcb. rewrite He2.
        destruct (decide (i = i /\ b = j)) as [|Hn]; [done|].
        apply Hin; [|done]. apply elem_of_app in Hb as [Hb|Hb]; [done|].
        apply list_elem_of_singleton in Hb. subst. tauto.
      * intros a b Hab. rewrite He2.
        destruct (decide (a = i /\ b = j)) as [[-> ->]|Hn].
        { exfalso. apply Hab. split; [done|]. split; [|done].
          apply elem_of_app. right. by apply list_elem_of_singleton. }
        apply Hout. intros (-> & Hb & Hcb). apply Hab.
        split; [done|]. split; [|done]. apply elem_of_app; by left.
    + eexists; split; [reflexivity|]. exists c1. split; [done|].
      split; [done|]. split.
      * intros b Hb Hcb. apply Hin; [|done].
        apply elem_of_app in Hb as [Hb|Hb]; [done|].
        apply list_elem_of_singleton in Hb. congruence.
      * intros a b Hab. apply Hout. intros (-> & Hb & Hcb). apply Hab.
        split; [done|]. split; [|done]. apply elem_of_app; by left.
  - exists conn. split; [done|]. split; [done|].
    split; [intros b Hb; by apply elem_of_nil in Hb|done].
  - destruct H as (c' & -> & Hs' & Hin & Hout). exists c'. eauto.
Qed.

Lemma connect_block_spec (cond : nat -> nat -> bool)
    (body : nat -> nat -> @method (ModularNetwork * nat) unit)
    (fr to : list nat) (self : ModularNetwork) (conn : list (list Qc))
    (k n : nat) :
  (forall i j st,
     body i j st = if cond i j then connect i j st else (Ok tt, st)) ->
  shaped conn n n ->
  (forall i, i ∈ fr -> (i < n)%nat) -> (forall j, j ∈ to -> (j < n)%nat) ->
  exists conn',
    forM fr (fun i _ => forM to (fun j _ => body i j) tt) tt
      (with_connection conn self, k)
    = (Ok tt, (with_connection conn' self, k))
    /\ shaped conn' n n
    /\ (forall a b, a ∈ fr -> b ∈ to -> cond a b = true ->
          entry conn' a b = Some 1)
    /\ (forall a b, ~ (a ∈ fr /\ b ∈ to /\ cond a b = true) ->
          entry conn' a b = entry conn a b).
Proof.
  intros Hbody Hs Hfr Hto.
  destruct (forM_rule
    (fun pre st => exists c1, st = (with_connection c1 self, k)
       /\ shaped c1 n n
       /\ (forall a b, a ∈ pre -> b ∈ to -> cond a b = true ->
             entry c1 a b = Some 1)
       /\ (forall a b, ~ (a ∈ pre /\ b ∈ to /\ cond a b = true) ->
             entry c1 a b = entry conn a b))
    fr (fun i _ => forM to (fun j _ => body i j) tt)) with (pre := @nil nat)
    (s := (with_connection conn self, k)) as (s' & E & H).
  - intros pre i st (c1 & -> & Hs1 & Hin & Hout) Hi.
    destruct (connect_row_spec (cond i) (body i) i to self c1 k n
                (Hbody i) Hs1 (Hfr _ Hi) Hto)
      as (c2 & E2 & Hs2 & Hin2 & Hout2).
    eexists; split; [exact E2|]. exists c2. split; [done|].
    split; [done|]. split.
    + intros a b Ha Hb Hc. destruct (decide (a = i)) as [->|Hne]; [eauto|].
      rewrite Hout2 by tauto. apply Hin; [|done|done].
      apply elem_of_app in Ha as [Ha|Ha]; [done|].
      apply list_elem_of_singleton in Ha. done.
    + intros a b Hab. rewrite Hout2.
      * apply Hout. intros (Ha & Hb & Hc). apply Hab. split; [|done].
        apply elem_of_app; by left.
      * intros (-> & Hb & Hc). apply Hab. split; [|done].
        apply elem_of_app; right. by apply list_elem_of_singleton.
  - exists conn. split; [done|]. split; [done|].
    split; [intros a b Ha; by apply elem_of_nil in Ha|done].
  - destruct H as (c' & -> & Hs' & Hin & Hout). exists c'. eauto.
Qed.

(** The three steps shared by the methods [add_..._connection]. *)
Lemma add_block_spec (cond : nat -> nat -> bool)
    (body : nat -> nat -> @method (ModularNetwork * nat) unit)
    (fr to : list nat) (g : Rng) (wt_lo wt_hi : Qc)
    (delay_min delay_max : Z) (self : ModularNetwork) (k n : nat) :
  (forall i j st,
     body i j st = if cond i j then connect i j st else (Ok tt, st)) ->
  rng_ok g -> mn_wf self n ->
  (forall i, i ∈ fr -> (i < n)%nat) -> (forall j, j ∈ to -> (j < n)%nat) ->
  (delay_min <= delay_max)%Z ->
  exists self',
    (_ ← forM fr (fun i _ => forM to (fun j _ => body i j) tt) tt;
     _ ← on_wt_coef (gen_coef (uniform g wt_lo wt_hi) fr to);
     on_delay_coef (gen_coef (randint g delay_min delay_max) fr to))
      (self, k)
    = (Ok tt, (self', (k + 2 * (length fr * length to))%nat))
    /\ mn_wf self' n
    /\ md_num self' = md_num self
    /\ md_excit_lst self' = md_excit_lst self
    /\ excit self' = excit self /\ inhib self' = inhib self
    /\ (forall i j, i ∈ fr -> j ∈ to ->
          (cond i j = true -> entry (connection self') i j = Some 1)
          /\ (cond i j = false ->
              entry (connection self') i j = entry (connection self) i j)
          /\ (exists w, entry (wt_coef self') i j = Some w
                        /\ between wt_lo wt_hi w)
          /\ (exists d, entry (delay_coef self') i j = Some d
                        /\ (delay_min <= d <= delay_max)%Z))
    /\ (forall i j, ~ (i ∈ fr /\ j ∈ to) ->
          entry (connection self') i j = entry (connection self) i j
          /\ entry (wt_coef self') i j = entry (wt_coef self) i j
          /\ entry (delay_coef self') i j = entry (delay_coef self) i j).
Proof.
  intros Hbody Hg [Hc Hd Hw Hex Hin] Hfr Hto Hle.
  destruct (connect_block_spec cond body fr to self (connection self) k n
              Hbody Hc Hfr Hto) as (c' & E1 & Hc' & Hc1 & Hc2).
  replace (with_connection (connection self) self) with self in E1
    by (by destruct self).
  destruct (gen_coef_spec (between wt_lo wt_hi) (uniform g wt_lo wt_hi) n n
              fr to (wt_coef self) k (fun k' => uniform_spec g _ _ k' Hg)
              Hw Hfr Hto) as (w' & E2 & Hw' & Hw1 & Hw2).
  destruct (gen_coef_spec (fun x => (delay_min <= x <= delay_max)%Z)
              (randint g delay_min delay_max) n n fr to (delay_coef self)
              (k + length fr * length to)
              (fun k' => randint_spec g _ _ k' Hg Hle) Hd Hfr Hto)
    as (d' & E3 & Hd' & Hd1 & Hd2).
  exists (with_delay_coef d' (with_wt_coef w' (with_connection c' self))).
  split.
  { replace (k + 2 * (length fr * length to))%nat
      with (k + length fr * length to + length fr * length to)%nat by lia.
    unfold mbind, method_bind, mbind_method. rewrite E1.
    unfold on_wt_coef, on_delay_coef. cbn [fst snd with_connection wt_coef].
    rewrite E2. cbn [fst snd with_wt_coef with_connection delay_coef].
    rewrite E3. reflexivity. }
  split; [by split|]. do 4 (split; [done|]).
  split.
  - intros i j Hi Hj. split; [by apply Hc1|]. split.
    + intros Hf. apply Hc2. intros (_ & _ & Ht). congruence.
    + split; [by apply Hw1 | by apply Hd1].
  - intros i j Hij. split; [|split].
    + apply Hc2. tauto.
    + by apply Hw2.
    + by apply Hd2.
Qed.

(** X16: on a network whose matrices are n-by-n, [add_in2ex_connection]
    with a delay interval that is not empty returns; it connects every
    inhibitory neuron to every excitatory neuron, draws for each such pair a
    weight between [wt_min * scaling] and [wt_max * scaling] and a delay in
    [[delay_min, delay_max]], and leaves every other entry of the three
    matrices, and the populations, as they were. *)
Theorem in2ex_all_to_all (g : Rng) (wt_min wt_max scaling : Qc)
    (delay_min delay_max : Z) (self : ModularNetwork) (k n : nat) :
  rng_ok g -> mn_wf self n -> (delay_min <= delay_max)%Z ->
  exists self',
    add_in2ex_connection g wt_min wt_max scaling delay_min delay_max (self, k)
    = (Ok tt,
       (self', (k + 2 * (length (inhib self) * length (excit self)))%nat))
    /\ mn_wf self' n
    /\ md_num self' = md_num self
    /\ md_excit_lst self' = md_excit_lst self
    /\ excit self' = excit self /\ inhib self' = inhib self
    /\ (forall i j, i ∈ inhib self -> j ∈ excit self ->
          entry (connection self') i j = Some 1
          /\ (exists w, entry (wt_coef self') i j = Some w
                /\ between (wt_min * scaling) (wt_max * scaling) w)
          /\ (exists d, entry (delay_coef self') i j = Some d
                /\ (delay_min <= d <= delay_max)%Z))
    /\ (forall i j, ~ (i ∈ inhib self /\ j ∈ excit self) ->
          entry (connection self') i j = entry (connection self) i j
          /\ entry (wt_coef self') i j = entry (wt_coef self) i j
          /\ entry (delay_coef self') i j = entry (delay_coef self) i j).
Proof.
  intros Hg Hwf Hle.
  destruct (add_block_spec (fun _ _ => true) connect (inhib self)
              (excit self) g (wt_min * scaling) (wt_max * scaling)
              delay_min delay_max self k n (fun _ _ _ => eq_refl) Hg Hwf
              (mn_inhib _ _ Hwf) (mn_excit _ _ Hwf) Hle)
    as (self' & E & Hwf' & ? & ? & ? & ? & Hin & Hout).
  exists self'. split; [exact E|]. do 5 (split; [done|]).
  split; [|exact Hout].
  intros i j Hi Hj. destruct (Hin i j Hi Hj) as (Ha & _ & Hb & Hc). auto.
Qed.

(** X17: on a network whose matrices are n-by-n, [add_in2in_connection]
    with a delay interval that is not empty returns; it connects every
    inhibitory neuron to every other inhibitory neuron and never to itself
    (the diagonal of [connection] is as before, although a weight and a
    delay are drawn for it too), and leaves every entry outside the
    inhibitory block, and the populations, as they were. *)
Theorem in2in_all_but_self (g : Rng) (wt_min wt_max scaling : Qc)
    (delay_min delay_max : Z) (self : ModularNetwork) (k n : nat) :
  rng_ok g -> mn_wf self n -> (delay_min <= delay_max)%Z ->
  exists self',
    add_in2in_connection g wt_min wt_max scaling delay_min delay_max (self, k)
    = (Ok tt,
       (self', (k + 2 * (length (inhib self) * length (inhib self)))%nat))
    /\ mn_wf self' n
    /\ md_num self' = md_num self
    /\ md_excit_lst self' = md_excit_lst self
    /\ excit self' = excit self /\ inhib self' = inhib self
    /\ (forall i j, i ∈ inhib self -> j ∈ inhib self ->
          (i <> j -> entry (connection self') i j = Some 1)
          /\ (i = j ->
              entry (connection self') i j = entry (connection self) i j)
          /\ (exists w, entry (wt_coef self') i j = Some w
                /\ between (wt_min * scaling) (wt_max * scaling) w)
          /\ (exists d, entry (delay_coef self') i j = Some d
                /\ (delay_min <= d <= delay_max)%Z))
    /\ (forall i j, ~ (i ∈ inhib self /\ j ∈ inhib self) ->
          entry (connection self') i j = entry (connection self) i j
          /\ entry (wt_coef self') i j = entry (wt_coef self) i j
          /\ entry (delay_coef self') i j = entry (delay_coef self) i j).
Proof.
  intros Hg Hwf Hle.
  destruct (add_block_spec (fun i j => bool_decide (i <> j))
              (fun i j => if decide (i <> j) then connect i j else ret tt)
              (inhib self) (inhib self) g (wt_min * scaling)
              (wt_max * scaling) delay_min delay_max self k n)
    as (self' & E & Hwf' & ? & ? & ? & ? & Hin & Hout);
    [| done | done | apply Hwf | apply Hwf | done |].
  { intros i j st. destruct (decide (i <> j)) as [Hne|Heq].
    - by rewrite bool_decide_true.
    - by rewrite bool_decide_false. }
  exists self'. split; [exact E|]. do 5 (split; [done|]).
  split; [|exact Hout].
  intros i j Hi Hj. destruct (Hin i j Hi Hj) as (Ha & Hb & Hc & Hd).
  split; [|split; [|done]].
  - intros Hne. apply Ha. by apply bool_decide_true.
  - intros Heq. apply Hb. apply bool_decide_false. tauto.
Qed.

(** The constructor. *)
Lemma module_ranges_spec (md_num excit : nat) :
  module_ranges md_num excit
  = ((fun m => seq (m * excit) excit) <$> seq 0 md_num,
     (md_num * excit)%nat).
Proof.
  unfold module_ranges. induction md_num as [|m IH]; [done|].
  rewrite seq_S, foldl_app, IH. cbn [foldl fst snd].
  rewrite fmap_app. cbn [fmap list_fmap]. unfold py_range.
  replace (m * excit + excit - m * excit)%nat with excit by lia.
  replace (m * excit + excit)%nat with (S m * excit)%nat by lia.
  reflexivity.
Qed.

Lemma shaped_replicate {A} (x : A) (r c : nat) :
  shaped (replicate r (replicate c x)) r c.
Proof.
  split; [apply length_replicate|].
  intros i row [-> _]%lookup_replicate_1. apply length_replicate.
Qed.

Lemma entry_replicate {A} (x : A) (r c i j : nat) :
  (i < r)%nat -> (j < c)%nat ->
  entry (replicate r (replicate c x)) i j = Some x.
Proof.
  intros Hi Hj. unfold entry. rewrite lookup_replicate_2 by done. simpl.
  by apply lookup_replicate_2.
Qed.

Lemma init_mn_wf (md_num excit inhib : nat) :
  mn_wf (ModularNetwork__init__ md_num excit inhib)
    (md_num * excit + inhib).
Proof.
  unfold ModularNetwork__init__. rewrite module_ranges_spec. cbn [fst snd].
  split; cbn; try apply shaped_replicate.
  - intros i Hi. unfold py_range in Hi. apply elem_of_seq in Hi. lia.
  - intros i Hi. unfold py_range in Hi. apply elem_of_seq in Hi. lia.
Qed.

Lemma init_layout_entries (n_md n_ex n_in : nat) :
  (forall i, i ∈ excit (ModularNetwork__init__ n_md n_ex n_in)
             <-> (i < n_md * n_ex)%nat)
  /\ (forall i, i ∈ inhib (ModularNetwork__init__ n_md n_ex n_in)
                <-> (n_md * n_ex <= i < n_md * n_ex + n_in)%nat)
  /\ (forall i j, (i < n_md * n_ex + n_in)%nat ->
        (j < n_md * n_ex + n_in)%nat ->
        entry (connection (ModularNetwork__init__ n_md n_ex n_in)) i j
        = Some 0).
Proof.
  unfold ModularNetwork__init__. rewrite module_ranges_spec.
  cbn [fst snd excit inhib connection]. unfold py_range.
  split; [intros i; rewrite elem_of_seq; lia|].
  split; [intros i; rewrite elem_of_seq; lia|].
  intros i j Hi Hj. unfold zeros2, zeros. by rewrite entry_replicate.
Qed.

(** X18: [ModularNetwork(md_num, excit, inhib)] numbers the neurons module
    by module: module [m] is the block of the [excit] neurons from
    [m * excit] on, the excitatory population the first [md_num * excit]
    neurons and the inhibitory population the [inhib] neurons after them;
    the three matrices are square over all of them and zero everywhere. *)
Theorem init_layout (n_md n_ex n_in : nat) :
  mn_wf (ModularNetwork__init__ n_md n_ex n_in) (n_md * n_ex + n_in)
  /\ length (md_excit_lst (ModularNetwork__init__ n_md n_ex n_in)) = n_md
  /\ (forall m, (m < n_md)%nat ->
        exists l,
          md_excit_lst (ModularNetwork__init__ n_md n_ex n_in) !! m = Some l
          /\ forall i, i ∈ l <-> (m * n_ex <= i < (m + 1) * n_ex)%nat)
  /\ (forall i, i ∈ excit (ModularNetwork__init__ n_md n_ex n_in)
                <-> (i < n_md * n_ex)%nat)
  /\ (forall i, i ∈ inhib (ModularNetwork__init__ n_md n_ex n_in)
                <-> (n_md * n_ex <= i < n_md * n_ex + n_in)%nat)
  /\ (forall i j, (i < n_md * n_ex + n_in)%nat ->
        (j < n_md * n_ex + n_in)%nat ->
        entry (connection (ModularNetwork__init__ n_md n_ex n_in)) i j
        = Some 0
        /\ entry (wt_coef (ModularNetwork__init__ n_md n_ex n_in)) i j
           = Some 0
        /\ entry (delay_coef (ModularNetwork__init__ n_md n_ex n_in)) i j
           = Some 0%Z).
Proof.
  split; [apply init_mn_wf|].
  unfold ModularNetwork__init__. rewrite module_ranges_spec.
  cbn [fst snd md_excit_lst excit inhib connection wt_coef delay_coef].
  split; [by rewrite length_fmap, length_seq|]. split.
  { intros m Hm. eexists. split.
    - rewrite list_lookup_fmap, lookup_seq_lt by done. reflexivity.
    - intros i. rewrite elem_of_seq. simpl. lia. }
  unfold py_range. split; [intros i; rewrite elem_of_seq; lia|].
  split; [intros i; rewrite elem_of_seq; lia|].
  intros i j Hi Hj. unfold zeros2, zeros.
  rewrite !entry_replicate by done. done.
Qed.

Lemma in2ex_all_to_all_witness :
  exists self',
    add_in2ex_connection steady (qc (-1) 1) 0 (qc 2 1) 1 1
      (ModularNetwork__init__ 1 2 1, 0%nat)
    = (Ok tt, (self', 4%nat))
    /\ entry (connection self') 2 0 = Some 1
    /\ entry (connection self') 0 2 = Some 0.
Proof.
  destruct (in2ex_all_to_all steady (qc (-1) 1) 0 (qc 2 1) 1 1
              (ModularNetwork__init__ 1 2 1) 0 3)
    as (self' & E & _ & _ & _ & _ & _ & Hin & Hout).
  - exact steady_ok.
  - exact (init_mn_wf 1 2 1).
  - lia.
  - exists self'. split; [exact E|]. split.
    + apply Hin; apply elem_of_seq; simpl; lia.
    + apply Hout. intros [Hi _]. apply elem_of_seq in Hi. simpl in Hi. lia.
Defined.

Lemma in2in_all_but_self_witness :
  exists self',
    add_in2in_connection steady (qc (-1) 1) 0 1 1 1
      (ModularNetwork__init__ 1 1 2, 0%nat)
    = (Ok tt, (self', 8%nat))
    /\ entry (connection self') 1 2 = Some 1
    /\ entry (connection self') 1 1 = Some 0.
Proof.
  destruct (in2in_all_but_self steady (qc (-1) 1) 0 1 1 1
              (ModularNetwork__init__ 1 1 2) 0 3)
    as (self' & E & _ & _ & _ & _ & _ & Hin & Hout).
  - exact steady_ok.
  - exact (init_mn_wf 1 1 2).
  - lia.
  - exists self'. split; [exact E|]. split.
    + apply Hin; [apply elem_of_seq; simpl; lia ..|lia].
    + apply (Hin 1%nat 1%nat); [apply elem_of_seq; simpl; lia ..|done].
Defined.

(** X19: on a network just constructed, [add_in2ex_connection] followed by
    [add_in2in_connection] (with delay intervals that are not empty) gives
    the whole inhibitory wiring: [connection[i][j]] is 1 exactly when [i] is
    an inhibitory neuron and [j] another neuron, and 0 otherwise; no
    inhibitory neuron is connected to itself and no excitatory neuron has
    an outgoing connection yet. *)
Theorem inhibitory_wiring (g : Rng) (n_md n_ex n_in : nat)
    (wt_min wt_max scaling : Qc) (delay_min delay_max : Z)
    (wt_min' wt_max' scaling' : Qc) (delay_min' delay_max' : Z) (k : nat) :
  rng_ok g -> (delay_min <= delay_max)%Z -> (delay_min' <= delay_max')%Z ->
  exists self1 k1 self2 k2,
    add_in2ex_connection g wt_min wt_max scaling delay_min delay_max
      (ModularNetwork__init__ n_md n_ex n_in, k) = (Ok tt, (self1, k1))
    /\ add_in2in_connection g wt_min' wt_max' scaling' delay_min' delay_max'
         (self1, k1) = (Ok tt, (self2, k2))
    /\ forall i j, (i < n_md * n_ex + n_in)%nat ->
         (j < n_md * n_ex + n_in)%nat ->
         entry (connection self2) i j
         = Some (if bool_decide (n_md * n_ex <= i /\ i <> j)%nat
                 then 1 else 0).
Proof.
  intros Hg Hle Hle'.
  pose proof (init_mn_wf n_md n_ex n_in) as Hwf0.
  destruct (init_layout_entries n_md n_ex n_in) as (Hex & Hinh & Hzero).
  set (self0 := ModularNetwork__init__ n_md n_ex n_in) in *.
  destruct (add_block_spec (fun _ _ => true) connect (inhib self0)
              (excit self0) g (wt_min * scaling) (wt_max * scaling)
              delay_min delay_max self0 k _ (fun _ _ _ => eq_refl) Hg Hwf0
              (mn_inhib _ _ Hwf0) (mn_excit _ _ Hwf0) Hle)
    as (self1 & E1 & Hwf1 & _ & _ & Hex1 & Hin1 & Hset1 & Hout1).
  destruct (add_block_spec (fun i j => bool_decide (i <> j))
              (fun i j => if decide (i <> j) then connect i j else ret tt)
              (inhib self1) (inhib self1) g (wt_min' * scaling')
              (wt_max' * scaling') delay_min' delay_max' self1
              (k + 2 * (length (inhib self0) * length (excit self0)))
              (n_md * n_ex + n_in))
    as (self2 & E2 & _ & _ & _ & _ & _ & Hset2 & Hout2);
    [| done | done | apply Hwf1 | apply Hwf1 | done |].
  { intros i j st. destruct (decide (i <> j)) as [Hne|Heq].
    - by rewrite bool_decide_true.
    - by rewrite bool_decide_false. }
  exists self1; eexists; exists self2; eexists.
  split; [exact E1|]. split; [exact E2|].
  intros i j Hi Hj. rewrite Hin1 in Hset2, Hout2.
  destruct (decide (n_md * n_ex <= i)%nat) as [Hge|Hlt].
  - assert (i ∈ inhib self0) as Hii by (apply Hinh; lia).
    destruct (decide (n_md * n_ex <= j)%nat) as [Hgj|Hlj].
    + assert (j ∈ inhib self0) as Hjj by (apply Hinh; lia).
      destruct (Hset2 i j Hii Hjj) as (Ha & Hb & _).
      destruct (decide (i = j)) as [->|Hne].
      * rewrite bool_decide_false by tauto.
        rewrite Hb by (by apply bool_decide_false; tauto).
        destruct (Hout1 j j) as (-> & _).
        { intros [_ Hje]. apply Hex in Hje. lia. }
        by apply Hzero.
      * rewrite bool_decide_true by tauto.
        apply Ha. by apply bool_decide_true.
    + rewrite bool_decide_true by lia.
      destruct (Hout2 i j) as (-> & _).
      { intros [_ Hji]. apply Hinh in Hji. lia. }
      assert (j ∈ excit self0) as Hje by (apply Hex; lia).
      destruct (Hset1 i j Hii Hje) as (Hc & _). by apply Hc.
  - rewrite bool_decide_false by lia.
    destruct (Hout2 i j) as (-> & _).
    { intros [Hi' _]. apply Hinh in Hi'. lia. }
    destruct (Hout1 i j) as (-> & _).
    { intros [Hi' _]. apply Hinh in Hi'. lia. }
    by apply Hzero.
Qed.

Lemma inhibitory_wiring_witness :
  exists self1 k1 self2 k2,
    add_in2ex_connection steady (qc (-1) 1) 0 (qc 2 1) 1 1
      (ModularNetwork__init__ 1 1 2, 0%nat) = (Ok tt, (self1, k1))
    /\ add_in2in_connection steady (qc (-1) 1) 0 1 1 1
         (self1, k1) = (Ok tt, (self2, k2))
    /\ forall i j, (i < 1 * 1 + 2)%nat -> (j < 1 * 1 + 2)%nat ->
         entry (connection self2) i j
         = Some (if bool_decide (1 * 1 <= i /\ i <> j)%nat then 1 else 0).
Proof.
  apply (inhibitory_wiring steady 1 1 2 (qc (-1) 1) 0 (qc 2 1) 1 1
           (qc (-1) 1) 0 1 1 1 0).
  - exact steady_ok.
  - lia.
  - lia.
Defined.

(** ** The network handed to [IzNetwork] *)

Lemma np_shape_shaped {A} (m : list (list A)) (n : nat) :
  shaped m n n -> np_shape m = [n; n].
Proof.
  intros [Hr Hc]. unfold np_shape. rewrite Hr. f_equal.
  destruct m as [|row m]; simpl in *; [by subst|].
  f_equal. exact (Hc 0%nat row eq_refl).
Qed.

Lemma effective_weights_spec (self : ModularNetwork) (n : nat) :
  shaped (wt_coef self) n n -> shaped (connection self) n n ->
  shaped (effective_weights self) n n
  /\ forall i j, (i < n)%nat -> (j < n)%nat ->
       exists w x, entry (wt_coef self) i j = Some w
         /\ entry (connection self) i j = Some x
         /\ entry (effective_weights self) i j = Some (w * x).
Proof.
  intros [Hwr Hwc] [Hcr Hcc]. unfold effective_weights. split.
  - split; [rewrite length_zip_with; lia|].
    intros i row Hrow. apply lookup_zip_with_Some in Hrow
      as (r1 & r2 & -> & H1 & H2).
    rewrite length_zip_with, (Hwc _ _ H1), (Hcc _ _ H2). lia.
  - intros i j Hi Hj.
    destruct (lookup_lt_is_Some_2 (wt_coef self) i) as [r1 H1]; [lia|].
    destruct (lookup_lt_is_Some_2 (connection self) i) as [r2 H2]; [lia|].
    destruct (lookup_lt_is_Some_2 r1 j) as [w Hw];
      [rewrite (Hwc _ _ H1); lia|].
    destruct (lookup_lt_is_Some_2 r2 j) as [x Hx];
      [rewrite (Hcc _ _ H2); lia|].
    exists w, x. unfold entry. rewrite H1, H2. simpl.
    split; [done|]. split; [done|].
    rewrite lookup_zip_with, H1, H2. simpl.
    by rewrite lookup_zip_with, Hw, Hx.
Qed.

Lemma any_below_half_entry (D : list (list Z)) :
  any_below_half D = true
  <-> exists i j d, entry D i j = Some d /\ (d < 1)%Z.
Proof.
  rewrite any_below_half_spec. unfold entry. split.
  - intros (row & x & Hrow & Hx & Hlt).
    apply list_elem_of_lookup in Hrow as [i Hi].
    apply list_elem_of_lookup in Hx as [j Hj].
    exists i, j, x. rewrite Hi. done.
  - intros (i & j & d & Hd & Hlt).
    destruct (D !! i) as [row|] eqn:Hi; [|done]. simpl in Hd.
    exists row, d. split; [by eapply list_elem_of_lookup_2|].
    split; [by eapply list_elem_of_lookup_2|done].
Qed.

Lemma configure_IntArray (N Dmax : Z) (a b c d : list Qc) (W : ndarray Qc)
    (A : ndarray Z) :
  (0 <= N)%Z -> (0 <= Dmax + 1)%Z ->
  length a = Z.to_nat N -> length b = Z.to_nat N ->
  length c = Z.to_nat N -> length d = Z.to_nat N ->
  shape W = [Z.to_nat N; Z.to_nat N] ->
  shape A = [Z.to_nat N; Z.to_nat N] ->
  (any_below_half (rows A) = true ->
   configure N Dmax a b c d W (IntArray A)
   = Raise (Exception "Delays must be strictly positive."))
  /\ (any_below_half (rows A) = false ->
      is_ok (configure N Dmax a b c d W (IntArray A)) = true).
Proof.
  intros HN HD Ha Hb Hc Hd HW HA. unfold configure, __init__.
  destruct (Z.ltb_spec (Dmax + 1) 0); [lia|].
  destruct (Z.ltb_spec N 0); [lia|]. simpl.
  unfold setParameters, setWeights, setDelays, shape_eqb. run_method.
  rewrite Ha, Hb, Hc, Hd, HW, HA.
  repeat (rewrite bool_decide_true by done; simpl).
  destruct (any_below_half (rows A)); simpl; split; done.
Qed.

(** X20: [simulate_network] can configure its [IzNetwork] exactly when
    every entry of [delay_coef] is at least 1, also between neurons that are
    not connected: otherwise [setDelays] raises.  When it can, the network it
    drives has 21 buffer slots, one neuron per neuron of the two
    populations, the delays of [delay_coef] and the weights
    [wt_coef[i][j] * connection[i][j]], and one call of [random.uniform] per
    neuron has been made. *)
Theorem simulate_setup_spec (g : Rng) (self : ModularNetwork) (k n : nat) :
  mn_wf self n -> (length (excit self) + length (inhib self))%nat = n ->
  ((simulate_setup g self k).1
   = Raise (Exception "Delays must be strictly positive.")
   <-> exists i j d, entry (delay_coef self) i j = Some d /\ (d < 1)%Z)
  /\ (is_ok (simulate_setup g self k).1 = true
      <-> forall i j d, entry (delay_coef self) i j = Some d -> (1 <= d)%Z)
  /\ (forall net, (simulate_setup g self k).1 = Ok net ->
        (simulate_setup g self k).2 = (k + n)%nat
        /\ (exists a b c d,
              ready net a b c d (effective_weights self) (delay_coef self)
                21 n)
        /\ forall i j, (i < n)%nat -> (j < n)%nat ->
             exists w x, entry (wt_coef self) i j = Some w
               /\ entry (connection self) i j = Some x
               /\ entry (effective_weights self) i j = Some (w * x)).
Proof.
  intros [Hc Hd Hw Hex Hin] Hn.
  destruct (effective_weights_spec self n Hw Hc) as [Hsw Hew].
  unfold simulate_setup. cbn [fst snd]. rewrite Hn.
  set (p := draw_parameters g excit_parameters (length (excit self)) k
            ++ draw_parameters g inhib_parameters (length (inhib self))
                 (k + length (excit self))).
  assert (length p = n) as Hp.
  { unfold p, draw_parameters.
    rewrite length_app, !length_fmap, !length_seq. done. }
  destruct (configure_IntArray (Z.of_nat n) 20
              ((fun x => x.1.1.1) <$> p) ((fun x => x.1.1.2) <$> p)
              ((fun x => x.1.2) <$> p) (snd <$> p)
              (NdArray (np_shape (effective_weights self))
                 (effective_weights self))
              (NdArray (np_shape (delay_coef self)) (delay_coef self)))
    as [Hbad Hgood]; try lia;
    try (rewrite length_fmap, Nat2Z.id; exact Hp);
    try (simpl; rewrite Nat2Z.id; by apply np_shape_shaped).
  simpl in Hbad, Hgood.
  destruct (any_below_half (delay_coef self)) eqn:Hany.
  - pose proof Hany as Hex'. apply any_below_half_entry in Hex'.
    rewrite (Hbad eq_refl). split; [done|]. split; [|done].
    split; [done|]. intros Hall.
    destruct Hex' as (i & j & x & Hx & Hlt). specialize (Hall i j x Hx). lia.
  - specialize (Hgood eq_refl).
    assert (forall i j x, entry (delay_coef self) i j = Some x -> (1 <= x)%Z)
      as Hall.
    { intros i j x Hx. destruct (decide (1 <= x)%Z) as [|Hlt]; [done|].
      assert (any_below_half (delay_coef self) = true) as E
        by (apply any_below_half_entry; exists i, j, x; split; [done|lia]).
      congruence. }
    destruct (configure _ _ _ _ _ _ _ _) as [net|e] eqn:E; [|done].
    split.
    { split; [done|]. intros (i & j & x & Hx & Hlt).
      specialize (Hall i j x Hx). lia. }
    split; [done|].
    intros net' [= <-]. split; [lia|]. split; [|done].
    destruct (configure_ready _ _ _ _ _ _ _ _ _ E) as (E' & HE & Hr & _);
      [lia|].
    simpl in HE. injection HE as <-. simpl in Hr.
    rewrite Nat2Z.id in Hr. eauto.
Qed.

Lemma simulate_setup_spec_witness :
  (simulate_setup steady (ModularNetwork__init__ 1 1 2) 0).1
  = Raise (Exception "Delays must be strictly positive.").
Proof.
  apply (simulate_setup_spec steady (ModularNetwork__init__ 1 1 2) 0 3).
  - exact (init_mn_wf 1 1 2).
  - reflexivity.
  - exists 0%nat, 0%nat, 0%Z. split; [reflexivity|lia].
Defined.

(** X21: the parameters [simulate_network] draws: an excitatory neuron gets
    [a = 0.02], [b = 0.2], [c] in [[-65, -50]] and [d] in [[2, 8]]; an
    inhibitory neuron gets [a] in [[0.02, 0.1]], [b] in [[0.2, 0.25]],
    [c = -65] and [d = 2].  The bounds are not strict, so that they also hold
    of the rounded values the source computes. *)
Theorem parameter_ranges (g : Rng) (n k i : nat) :
  rng_ok g -> (i < n)%nat ->
  (exists c d,
     draw_parameters g excit_parameters n k !! i
     = Some (qc 2 100, qc 2 10, c, d)
     /\ qc (-65) 1 <= c /\ c <= qc (-50) 1 /\ qc 2 1 <= d /\ d <= qc 8 1)
  /\ (exists a b,
        draw_parameters g inhib_parameters n k !! i
        = Some (a, b, qc (-65) 1, qc 2 1)
        /\ qc 2 100 <= a /\ a <= qc 1 10 /\ qc 2 10 <= b /\ b <= qc 25 100).
Proof.
  intros [Hu _] Hi. unfold draw_parameters.
  rewrite !list_lookup_fmap, lookup_seq_lt by done. simpl.
  destruct (Hu (k + i)%nat) as [H0 H1]. revert H0 H1.
  generalize (next_unit g (k + i)) as r. intros r H0 H1.
  unfold excit_parameters, inhib_parameters. split.
  - eexists _, _. split; [reflexivity|].
    repeat split; qc_to_q; nra.
  - eexists _, _. split; [reflexivity|].
    repeat split; qc_to_q; nra.
Qed.

Lemma parameter_ranges_witness :
  (exists c d,
     draw_parameters steady excit_parameters 3 0 !! 1%nat
     = Some (qc 2 100, qc 2 10, c, d)
     /\ qc (-65) 1 <= c /\ c <= qc (-50) 1 /\ qc 2 1 <= d /\ d <= qc 8 1)
  /\ (exists a b,
        draw_parameters steady inhib_parameters 3 0 !! 1%nat
        = Some (a, b, qc (-65) 1, qc 2 1)
        /\ qc 2 100 <= a /\ a <= qc 1 10 /\ qc 2 10 <= b /\ b <= qc 25 100).
Proof.
  apply (parameter_ranges steady 3 0 1).
  - exact steady_ok.
  - lia.
Defined.

(** X22: once [simulate_network] has configured its [IzNetwork] for a
    network with at least one neuron, the loop that drives it never raises:
    whatever currents of length [N] the steps are given, every [setCurrent]
    and [update] returns, after [t] steps the cursor is [t], and [getState]
    has one potential per neuron.  (Without neurons the first [update]
    raises.) *)
Theorem simulation_never_raises (g : Rng) (self : ModularNetwork)
    (k n : nat) (net : IzNetwork) (inputs : nat -> list Qc) (t : nat) :
  mn_wf self n -> (length (excit self) + length (inhib self))%nat = n ->
  n <> 0%nat ->
  (simulate_setup g self k).1 = Ok net ->
  (forall t, length (inputs t) = n) ->
  exists s, state_at net inputs t = Ok s
    /\ _cursor s = t /\ _N s = n /\ length (v s) = n.
Proof.
  intros [Hc Hd Hw Hex Hin] Hn Hn0 E HI.
  destruct (effective_weights_spec self n Hw Hc) as [Hsw _].
  unfold simulate_setup in E. cbn [fst] in E. rewrite Hn in E.
  destruct (configure_ready _ _ _ _ _ _ _ _ _ E) as (D & _ & Hr & H0 & _);
    [lia|].
  rewrite Nat2Z.id in Hr.
  destruct (state_at_ready _ _ _ _ _ _ _ _ _ inputs Hr Hn0 HI t)
    as (s & Hs & Hrs & Hcur).
  exists s. split; [done|]. split; [lia|].
  destruct Hrs as [Hwf _ _ HN _]. split; [done|].
  rewrite <- HN. apply Hwf.
Qed.

Lemma inhibitory_pair_wf : mn_wf inhibitory_pair 2.
Proof.
  split; simpl.
  - split; [reflexivity|]. intros [|[|i]] row H; simpl in H; simplify_eq;
      reflexivity.
  - split; [reflexivity|]. intros [|[|i]] row H; simpl in H; simplify_eq;
      reflexivity.
  - split; [reflexivity|]. intros [|[|i]] row H; simpl in H; simplify_eq;
      reflexivity.
  - intros i Hi. by apply elem_of_nil in Hi.
  - intros i Hi. apply elem_of_cons in Hi as [->|Hi]; [lia|].
    apply list_elem_of_singleton in Hi. lia.
Qed.

Lemma simulation_never_raises_witness :
  exists net s,
    (simulate_setup steady inhibitory_pair 0).1 = Ok net
    /\ state_at net (fun _ => [0; qc 15 1]) 3 = Ok s
    /\ _cursor s = 3%nat /\ _N s = 2%nat /\ length (v s) = 2%nat.
Proof.
  assert (exists net, (simulate_setup steady inhibitory_pair 0).1 = Ok net)
    as [net Hnet] by (eexists; reflexivity).
  exists net.
  destruct (simulation_never_raises steady inhibitory_pair 0 2 net
              (fun _ => [0; qc 15 1]) 3 inhibitory_pair_wf eq_refl
              ltac:(discriminate) Hnet (fun _ => eq_refl)) as (s & Hs).
  by exists s.
Defined.
